(** * gluonts.distribution.beta: the Beta distribution and its output head

    A shallow embedding of [src/gluonts/distribution/beta.py].

    The module computes with tensors of an external backend [F] (MXNet's
    [nd] namespace).  Here a tensor is a shape together with its entries in
    row-major order.  At the level of tensors the entries are real numbers,
    which fixes the expression every method evaluates at every entry; the
    rounding of the backend's [float32] is treated at the level of one
    entry ([Arith], [binary32]), where the statements that rest on order or
    on field identities are tested against it.  Backend operations that can
    raise (shape mismatch) return [None]. *)

From Stdlib Require Import String.
From Stdlib Require Import Reals Lra Lia List Arith PeanoNat Bool ZArith.
From Stdlib Require Import Floats.SpecFloat.
Import ListNotations.

Set Implicit Arguments.

(** ** Tensors of the backend *)

Record Tensor : Type := mkTensor { shape : list nat; data : list R }.

(** Number of entries of a tensor of the given shape. *)
Definition size (sh : list nat) : nat := fold_right Nat.mul 1%nat sh.

(** A tensor holds exactly as many entries as its shape says. *)
Definition wf (t : Tensor) : Prop := length (data t) = size (shape t).

(** Row-major offset of a multi-index. *)
Fixpoint ravel (sh idx : list nat) : nat :=
  match sh, idx with
  | _ :: sh', i :: idx' => (i * size sh' + ravel sh' idx')%nat
  | _, _ => 0%nat
  end.

(** Multi-index of a row-major offset. *)
Fixpoint unravel (sh : list nat) (k : nat) : list nat :=
  match sh with
  | [] => []
  | _ :: sh' => (k / size sh')%nat :: unravel sh' (k mod size sh')
  end.

Definition in_bounds (idx sh : list nat) : Prop := Forall2 lt idx sh.

(** [t[idx]] *)
Definition get (t : Tensor) (idx : list nat) : R :=
  nth (ravel (shape t) idx) (data t) 0%R.

(** The tensor of shape [sh] whose entry at [idx] is [g idx]. *)
Definition tabulate (sh : list nat) (g : list nat -> R) : Tensor :=
  mkTensor sh (map (fun k => g (unravel sh k)) (seq 0 (size sh))).

(** Elementwise application of a scalar function. *)
Definition tmap (f : R -> R) (t : Tensor) : Tensor :=
  mkTensor (shape t) (map f (data t)).

(** *** Broadcasting

    Shapes are aligned at their trailing axes; two aligned axes are
    compatible when they are equal or one of them is 1.  The recursion
    runs over the reversed shapes, innermost axis first. *)

Definition bdim (d1 d2 : nat) : option nat :=
  if (d1 =? d2)%nat then Some d1
  else if (d1 =? 1)%nat then Some d2
  else if (d2 =? 1)%nat then Some d1
  else None.

Fixpoint bshape_rev (r1 r2 : list nat) : option (list nat) :=
  match r1, r2 with
  | [], r => Some r
  | r, [] => Some r
  | d1 :: t1, d2 :: t2 =>
      match bdim d1 d2, bshape_rev t1 t2 with
      | Some d, Some t => Some (d :: t)
      | _, _ => None
      end
  end.

(** Shape of the result of a broadcasting operation; [None] when the
    operand shapes are incompatible. *)
Definition bshape (s1 s2 : list nat) : option (list nat) :=
  option_map (@rev nat) (bshape_rev (rev s1) (rev s2)).

Fixpoint bidx_rev (rsh ridx : list nat) : list nat :=
  match rsh, ridx with
  | d :: t, i :: ti => (if (d =? 1)%nat then 0%nat else i) :: bidx_rev t ti
  | _, _ => []
  end.

(** The index of an operand of shape [sh] that feeds entry [idx] of the
    broadcast result: leading axes the operand lacks are dropped and its
    axes of length 1 are read at 0. *)
Definition bidx (sh idx : list nat) : list nat :=
  rev (bidx_rev (rev sh) (rev idx)).

(** A computation that yields a tensor or raises. *)
Definition result : Type := option Tensor.

Definition bind {A B : Type} (m : option A) (k : A -> option B) : option B :=
  match m with
  | Some a => k a
  | None => None
  end.

(** Binary operator of the backend on two tensors, with broadcasting. *)
Definition broadcast_binary (f : R -> R -> R) (a b : Tensor) : result :=
  bind (bshape (shape a) (shape b)) (fun sh =>
    Some (tabulate sh (fun idx =>
            f (get a (bidx (shape a) idx)) (get b (bidx (shape b) idx))))).

Definition lift2 (f : R -> R -> R) (x y : result) : result :=
  bind x (fun a => bind y (fun b => broadcast_binary f a b)).

Definition t_add : result -> result -> result := lift2 Rplus.
Definition t_sub : result -> result -> result := lift2 Rminus.
Definition t_mul : result -> result -> result := lift2 Rmult.
Definition t_div : result -> result -> result := lift2 Rdiv.

(** Operators with a Python scalar on one side. *)
Definition t_add_scalar (x : result) (c : R) : result :=
  option_map (tmap (fun v => v + c)%R) x.
Definition t_sub_scalar (x : result) (c : R) : result :=
  option_map (tmap (fun v => v - c)%R) x.
Definition t_rsub_scalar (c : R) (x : result) : result :=
  option_map (tmap (fun v => c - v)%R) x.

Declare Scope tensor_scope.
Delimit Scope tensor_scope with T.
Bind Scope tensor_scope with result.
Infix "+" := t_add : tensor_scope.
Infix "-" := t_sub : tensor_scope.
Infix "*" := t_mul : tensor_scope.
Infix "/" := t_div : tensor_scope.
Notation "x +. c" := (t_add_scalar x c) (at level 50, left associativity) : tensor_scope.
Notation "x -. c" := (t_sub_scalar x c) (at level 50, left associativity) : tensor_scope.
Notation "c .- x" := (t_rsub_scalar c x) (at level 50, left associativity) : tensor_scope.

(** [F.ones_like] *)
Definition ones_like (t : Tensor) : Tensor := tmap (fun _ => 1%R) t.

(** [F.square] *)
Definition t_square (x : result) : result := option_map (tmap (fun v => v * v)%R) x.

(** The backend has no tensors without axes: a shape that would become
    empty keeps one axis of length 1. *)
Definition at_least_one_axis (sh : list nat) : list nat :=
  match sh with
  | [] => [1%nat]
  | _ => sh
  end.

(** [t.squeeze(axis=-1)]: drops the last axis, which must have length 1;
    when it is the only axis it stays, so that shape (1,) remains (1,). *)
Definition squeeze_last (t : Tensor) : result :=
  match rev (shape t) with
  | 1%nat :: r => Some (mkTensor (at_least_one_axis (rev r)) (data t))
  | _ => None
  end.

(** Stacking along a new leading axis (axis 0); the tensors must all have
    one shape and there must be at least one. *)
Definition stack (ts : list Tensor) : result :=
  match ts with
  | [] => None
  | t :: _ =>
      if forallb (fun u => if list_eq_dec Nat.eq_dec (shape u) (shape t) then true else false) ts
      then Some (mkTensor (length ts :: shape t) (concat (map data ts)))
      else None
  end.

(** ** The backend namespace [F]

    What [beta.py] asks of the backend beyond arithmetic: the elementwise
    functions [log], [gammaln] and [sqrt], and a generator of gamma
    variates that consumes random state. *)

Class Backend : Type := {
  F_log : R -> R;
  F_gammaln : R -> R;
  F_sqrt : R -> R;
  rng : Type;
  (** one draw from Gamma(shape [a], scale [b]) *)
  gamma_variate : R -> R -> rng -> R * rng
}.

Section Distribution.
Context {F : Backend}.

Definition t_log (x : result) : result := option_map (tmap F_log) x.
Definition t_gammaln (x : result) : result := option_map (tmap F_gammaln) x.
Definition t_sqrt (x : result) : result := option_map (tmap F_sqrt) x.

(** *** Sampling: computations that consume random state and may raise *)

Definition Sampler (A : Type) : Type := rng -> option (A * rng).

Definition sret {A : Type} (a : A) : Sampler A := fun g => Some (a, g).

Definition sbind {A B : Type} (m : Sampler A) (k : A -> Sampler B) : Sampler B :=
  fun g => match m g with
           | Some (a, g') => k a g'
           | None => None
           end.

Definition slift {A : Type} (m : option A) : Sampler A :=
  fun g => option_map (fun a => (a, g)) m.

Notation "x <- m ;; k" := (sbind m (fun x => k))
  (at level 61, m at next level, right associativity).

(** One gamma variate per pair of parameters, drawn in order. *)
Fixpoint draw_all (ps : list (R * R)) (g : rng) : list R * rng :=
  match ps with
  | [] => ([], g)
  | (a, b) :: ps' =>
      let (v, g1) := gamma_variate a b g in
      let (vs, g2) := draw_all ps' g1 in
      (v :: vs, g2)
  end.

(** [F.sample_gamma(alpha, beta)]: concurrent draws from the gamma
    distributions with the entries of [alpha] as shapes and the entries of
    [beta] as scales; the two parameter tensors must have one shape, which
    is the shape of the result. *)
Definition sample_gamma (alpha beta : Tensor) : Sampler Tensor :=
  fun g =>
    if list_eq_dec Nat.eq_dec (shape alpha) (shape beta)
    then let (vs, g') := draw_all (combine (data alpha) (data beta)) g in
         Some (mkTensor (shape alpha) vs, g')
    else None.

(** Modelled from the spec: [_sample_multiple] of
    [gluonts/distribution/distribution.py], which is not among the sources.
    Without a count the sampling function is run once; with a count the
    draw is repeated that many times and the draws are stacked along a new
    leading axis. *)
Fixpoint repeat_draws (n : nat) (m : Sampler Tensor) : Sampler (list Tensor) :=
  match n with
  | O => sret []
  | S n' => t <- m ;; ts <- repeat_draws n' m ;; sret (t :: ts)
  end.

Definition _sample_multiple (sample_func : Tensor -> Tensor -> Sampler Tensor)
    (alpha beta : Tensor) (num_samples : option nat) : Sampler Tensor :=
  match num_samples with
  | None => sample_func alpha beta
  | Some n => ts <- repeat_draws n (sample_func alpha beta) ;; slift (stack ts)
  end.

(** Modelled from the spec: [softplus] of
    [gluonts/distribution/distribution.py], which is not among the sources:
    the smooth function log(1+exp(x)), applied to every entry. *)
Definition softplus_scalar (v : R) : R := ln (1 + exp v).

Definition softplus (x : Tensor) : result := Some (tmap softplus_scalar x).

(** ** class Beta *)

Record Beta : Type := mkBeta { alpha : Tensor; beta : Tensor }.

Definition batch_shape (self : Beta) : list nat := shape (alpha self).

Definition event_shape (self : Beta) : list nat := [].

Definition event_dim (self : Beta) : nat := 0.

Definition log_prob (self : Beta) (x : Tensor) : result :=
  let '(alpha, beta, x) := (Some (alpha self), Some (beta self), Some x) in
  ((alpha -. 1) * t_log x
   + (beta -. 1) * t_log (1 .- x)
   - t_gammaln alpha
   - t_gammaln beta
   + t_gammaln (alpha + beta))%T.

Definition mean (self : Beta) : result :=
  let '(alpha, beta) := (Some (alpha self), Some (beta self)) in
  (alpha / (alpha + beta))%T.

Definition variance (self : Beta) : result :=
  let '(alpha, beta) := (Some (alpha self), Some (beta self)) in
  ((alpha * beta) / (t_square (alpha + beta) * (alpha + beta +. 1)))%T.

Definition stddev (self : Beta) : result := t_sqrt (variance self).

(** The inner function [s] of [Beta.sample]. *)
Definition s (alpha beta : Tensor) : Sampler Tensor :=
  samples_X <- sample_gamma alpha (ones_like alpha) ;;
  samples_Y <- sample_gamma beta (ones_like beta) ;;
  slift (Some samples_X / (Some samples_X + Some samples_Y))%T.

Definition sample (self : Beta) (num_samples : option nat) : Sampler Tensor :=
  _sample_multiple s (alpha self) (beta self) num_samples.

Definition args (self : Beta) : list Tensor := [alpha self; beta self].

(** ** class BetaOutput *)

Definition args_dim : list (string * nat) :=
  [("alpha"%string, 1%nat); ("beta"%string, 1%nat)].

Definition domain_map (alpha beta : Tensor) : option (Tensor * Tensor) :=
  let alpha := (softplus alpha +. 1e-8)%T in
  let beta := (softplus beta +. 1e-8)%T in
  bind alpha (fun alpha => bind beta (fun beta =>
    bind (squeeze_last alpha) (fun a =>
      bind (squeeze_last beta) (fun b => Some (a, b))))).

Definition BetaOutput_event_shape : list nat := [].

End Distribution.

(** ** Vocabulary of the statements *)

(** [entrywise r sh g]: the computation [r] returns a well-formed tensor of
    shape [sh] whose entry at every index [idx] is [g idx]. *)
Definition entrywise (r : result) (sh : list nat) (g : list nat -> R) : Prop :=
  exists t, r = Some t /\ wf t /\ shape t = sh /\
            forall idx, in_bounds idx sh -> get t idx = g idx.

(** A Beta instance as the data model has it: two well-formed parameter
    tensors of one shape. *)
Definition Beta_wf (self : Beta) : Prop :=
  wf (alpha self) /\ wf (beta self) /\ shape (alpha self) = shape (beta self).

(** ** A backend to run the definitions on

    Logarithm and square root of the reals; log-gamma exact at the positive
    integers ([ln ((n-1)!)], held constant in between); a counter-driven
    generator of positive variates. *)

Definition lgamma_step (x : R) : R :=
  ln (INR (fact (Z.to_nat (Int_part x) - 1))).

Definition counter_gamma (a b : R) (g : nat) : R * nat :=
  ((Rabs (a * b) + INR (S (g mod 4)) / 4)%R, S g).

Definition reference_backend : Backend :=
  {| F_log := ln;
     F_gammaln := lgamma_step;
     F_sqrt := R_sqrt.sqrt;
     rng := nat;
     gamma_variate := counter_gamma |}.

(** Inputs to run the definitions on: a batch of two Beta distributions, a
    point of evaluation, the uniform case, and raw network outputs with a
    trailing singleton axis. *)
Definition example_beta : Beta :=
  mkBeta (mkTensor [2%nat] [2; 5]%R) (mkTensor [2%nat] [5; 3]%R).

Definition example_x : Tensor := mkTensor [2%nat] [1 / 2; 1 / 4]%R.

Definition uniform_beta : Beta :=
  mkBeta (mkTensor [2%nat] [1; 1]%R) (mkTensor [2%nat] [1; 1]%R).

Definition example_raw_alpha : Tensor := mkTensor [2%nat; 1%nat] [0; -1000]%R.

Definition example_raw_beta : Tensor := mkTensor [2%nat; 1%nat] [3; -1]%R.

(** A Beta instance whose parameters differ in shape but broadcast (a
    column of two against a row of three), and a batch of two points of
    evaluation for [example_beta], along a leading axis. *)
Definition broadcast_beta : Beta :=
  mkBeta (mkTensor [2%nat; 1%nat] [2; 5]%R) (mkTensor [3%nat] [1; 2; 3]%R).

Definition mismatched_beta : Beta :=
  mkBeta (mkTensor [2%nat] [2; 5]%R) (mkTensor [3%nat] [1; 2; 3]%R).

Definition example_x_batch : Tensor :=
  mkTensor [2%nat; 2%nat] [1 / 2; 1 / 4; 1 / 3; 1 / 5]%R.

Definition example_x_row : Tensor := mkTensor [3%nat] [1 / 2; 1 / 3; 1 / 4]%R.

(** A raw tensor with an empty batch shape: its only axis is the trailing
    singleton. *)
Definition single_raw : Tensor := mkTensor [1%nat] [0%R].

(** ** The arithmetic of one entry

    Every operator of [beta.py] acts entry by entry.  The expressions
    below are the ones the methods evaluate at one entry, written over an
    arithmetic [A]: the real numbers, where every operation is exact, and
    binary32, the [float32] of the backend, where every operation rounds to
    nearest (ties to even) and can overflow. *)

Class Arith (A : Type) : Type := {
  a_one : A;
  a_add : A -> A -> A;
  a_sub : A -> A -> A;
  a_mul : A -> A -> A;
  a_div : A -> A -> A
}.

#[export] Instance exact_arith : Arith R :=
  {| a_one := 1%R; a_add := Rplus; a_sub := Rminus;
     a_mul := Rmult; a_div := Rdiv |}.

Definition binary32 : Type := spec_float.

Definition b32_of_Z (z : Z) : binary32 := binary_normalize 24 128 z 0 false.

#[export] Instance binary32_arith : Arith binary32 :=
  {| a_one := b32_of_Z 1;
     a_add := SFadd 24 128; a_sub := SFsub 24 128;
     a_mul := SFmul 24 128; a_div := SFdiv 24 128 |}.

(** [alpha / (alpha + beta)] *)
Definition mean_entry {A : Type} `{Arith A} (alpha beta : A) : A :=
  a_div alpha (a_add alpha beta).

(** [(alpha * beta) / (F.square(alpha + beta) * (alpha + beta + 1))] *)
Definition variance_entry {A : Type} `{Arith A} (alpha beta : A) : A :=
  a_div (a_mul alpha beta)
        (a_mul (a_mul (a_add alpha beta) (a_add alpha beta))
               (a_add (a_add alpha beta) a_one)).

(** [samples_X / (samples_X + samples_Y)] *)
Definition ratio_entry {A : Type} `{Arith A} (x y : A) : A :=
  a_div x (a_add x y).

(** [1 - x], the point at which the instance with exchanged parameters is
    evaluated. *)
Definition reflect_entry {A : Type} `{Arith A} (x : A) : A := a_sub a_one x.

Definition b32_zero : binary32 := b32_of_Z 0.

(** 2^-30, as the quotient of 1 and 2^30, which is exact. *)
Definition b32_two_pow_minus_30 : binary32 := a_div a_one (b32_of_Z (2 ^ 30)).

(** The epsilon of [domain_map] in binary32: the quotient of 1 and 10^8,
    rounded. *)
Definition b32_eps : binary32 := a_div a_one (b32_of_Z (10 ^ 8)).

(** Order and equality of binary32 values. *)
Definition b32_lt (x y : binary32) : bool := SFltb x y.
Definition b32_eq (x y : binary32) : bool := SFeqb x y.

(** ** The outcome of repeated sampling, written out

    One run of [s] as lists of entries: the variates X for the entries of
    alpha, then the variates Y for the entries of beta, and the quotients;
    [sample_runs] chains [n] runs through the random state. *)
Section Runs.
Context {F : Backend}.

Definition sample_run (alpha beta : Tensor) (g : rng) : list R * rng :=
  let dx := draw_all (map (fun a => (a, 1%R)) (data alpha)) g in
  let dy := draw_all (map (fun b => (b, 1%R)) (data beta)) (snd dx) in
  (map (fun xy => ratio_entry (fst xy) (snd xy)) (combine (fst dx) (fst dy)),
   snd dy).

Fixpoint sample_runs (alpha beta : Tensor) (n : nat) (g : rng)
  : list (list R) * rng :=
  match n with
  | O => ([], g)
  | S n' =>
      let (d, g1) := sample_run alpha beta g in
      let (ds, g2) := sample_runs alpha beta n' g1 in
      (d :: ds, g2)
  end.

End Runs.

(** ** The backend model on small shapes *)

Example bshape_column_row : bshape [2; 1]%nat [3]%nat = Some [2; 3]%nat.
Proof. reflexivity. Qed.

Example bshape_leading_axis : bshape [4; 2; 3]%nat [2; 1]%nat = Some [4; 2; 3]%nat.
Proof. reflexivity. Qed.

Example bshape_mismatch : bshape [2]%nat [3]%nat = None.
Proof. reflexivity. Qed.

Example bidx_column : bidx [2; 1]%nat [1; 2]%nat = [1; 0]%nat.
Proof. reflexivity. Qed.

Example bidx_row : bidx [3]%nat [1; 2]%nat = [2]%nat.
Proof. reflexivity. Qed.

Example unravel_2_3 : unravel [2; 3]%nat 4 = [1; 1]%nat.
Proof. reflexivity. Qed.

Example ravel_2_3 : ravel [2; 3]%nat [1; 1]%nat = 4%nat.
Proof. reflexivity. Qed.

Example broadcast_column_plus_row :
  option_map (fun t => (shape t, get t [1; 2]%nat))
    (broadcast_binary Rplus (mkTensor [2; 1]%nat [10; 20]%R)
                            (mkTensor [3]%nat [1; 2; 3]%R))
  = Some ([2; 3]%nat, (20 + 3)%R).
Proof. reflexivity. Qed.

Example squeeze_trailing_one :
  squeeze_last (mkTensor [2; 1]%nat [7; 8]%R) = Some (mkTensor [2]%nat [7; 8]%R).
Proof. reflexivity. Qed.

Example squeeze_only_axis :
  squeeze_last (mkTensor [1]%nat [7]%R) = Some (mkTensor [1]%nat [7]%R).
Proof. reflexivity. Qed.

Example squeeze_trailing_three :
  squeeze_last (mkTensor [2; 3]%nat [1; 2; 3; 4; 5; 6]%R) = None.
Proof. reflexivity. Qed.

Example stack_nothing : stack [] = None.
Proof. reflexivity. Qed.

(** ** Indices and offsets *)

Lemma size_app (s1 s2 : list nat) : size (s1 ++ s2) = (size s1 * size s2)%nat.
Proof.
  induction s1 as [|d s1 IH]; simpl.
  - lia.
  - rewrite IH. lia.
Qed.

Lemma in_bounds_length (idx sh : list nat) :
  in_bounds idx sh -> length idx = length sh.
Proof.
  induction 1; simpl; congruence.
Qed.

Lemma ravel_lt (sh idx : list nat) :
  in_bounds idx sh -> (ravel sh idx < size sh)%nat.
Proof.
  intros H. induction H as [|i d idx sh Hlt _ IH]; simpl.
  - lia.
  - nia.
Qed.

Lemma unravel_ravel (sh idx : list nat) :
  in_bounds idx sh -> unravel sh (ravel sh idx) = idx.
Proof.
  intros H. induction H as [|i d idx sh Hlt Hrest IH]; simpl.
  - reflexivity.
  - pose proof (ravel_lt Hrest) as Hr.
    assert (Hnz : size sh <> 0%nat) by lia.
    rewrite Nat.div_add_l by exact Hnz.
    rewrite (Nat.div_small _ _ Hr), Nat.add_0_r.
    rewrite Nat.add_comm, Nat.Div0.mod_add, (Nat.mod_small _ _ Hr).
    now rewrite IH.
Qed.

Lemma unravel_in_bounds (sh : list nat) :
  forall k, (k < size sh)%nat -> in_bounds (unravel sh k) sh.
Proof.
  induction sh as [|d sh IH]; intros k Hk; simpl in *.
  - constructor.
  - assert (Hnz : size sh <> 0%nat) by (intros E; rewrite E in Hk; lia).
    constructor.
    + apply Nat.Div0.div_lt_upper_bound. lia.
    + apply IH. now apply Nat.mod_upper_bound.
Qed.

Lemma ravel_unravel (sh : list nat) :
  forall k, (k < size sh)%nat -> ravel sh (unravel sh k) = k.
Proof.
  induction sh as [|d sh IH]; intros k Hk; simpl in *.
  - lia.
  - assert (Hnz : size sh <> 0%nat) by (intros E; rewrite E in Hk; lia).
    rewrite IH by now apply Nat.mod_upper_bound.
    pose proof (Nat.div_mod_eq k (size sh)). lia.
Qed.

Lemma ravel_app_singleton (sh idx : list nat) :
  length idx = length sh ->
  ravel (sh ++ [1%nat]) (idx ++ [0%nat]) = ravel sh idx.
Proof.
  revert idx. induction sh as [|d sh IH]; intros [|i idx] Hlen; simpl in *;
    try discriminate; try reflexivity.
  rewrite size_app, IH by congruence. simpl. lia.
Qed.

Lemma Forall2_rev {A B : Type} (P : A -> B -> Prop) (l1 : list A) (l2 : list B) :
  Forall2 P l1 l2 -> Forall2 P (rev l1) (rev l2).
Proof.
  induction 1; simpl.
  - constructor.
  - apply Forall2_app; [assumption | now constructor].
Qed.

(** ** Reading tensors *)

Lemma get_tabulate (sh : list nat) (g : list nat -> R) (idx : list nat) :
  in_bounds idx sh -> get (tabulate sh g) idx = g idx.
Proof.
  intros H. unfold get, tabulate; simpl.
  pose proof (ravel_lt H) as Hlt.
  rewrite (nth_indep _ 0%R (g (unravel sh 0%nat)))
    by now rewrite length_map, length_seq.
  rewrite (map_nth (fun k => g (unravel sh k)) (seq 0 (size sh)) 0%nat).
  rewrite seq_nth by exact Hlt. simpl.
  now rewrite unravel_ravel.
Qed.

Lemma wf_tabulate (sh : list nat) (g : list nat -> R) : wf (tabulate sh g).
Proof.
  unfold wf, tabulate; simpl. now rewrite length_map, length_seq.
Qed.

Lemma wf_tmap (f : R -> R) (t : Tensor) : wf t -> wf (tmap f t).
Proof.
  unfold wf, tmap; simpl. now rewrite length_map.
Qed.

Lemma get_tmap (f : R -> R) (t : Tensor) (idx : list nat) :
  wf t -> in_bounds idx (shape t) -> get (tmap f t) idx = f (get t idx).
Proof.
  intros Hwf H. unfold get, tmap; simpl.
  pose proof (ravel_lt H) as Hlt.
  rewrite (nth_indep _ 0%R (f 0%R)) by (rewrite length_map, Hwf; exact Hlt).
  apply map_nth.
Qed.

(** A well-formed tensor is determined by its shape and its entries. *)
Lemma tensor_ext (t1 t2 : Tensor) :
  wf t1 -> wf t2 -> shape t1 = shape t2 ->
  (forall idx, in_bounds idx (shape t1) -> get t1 idx = get t2 idx) ->
  t1 = t2.
Proof.
  destruct t1 as [s1 d1], t2 as [s2 d2]. unfold wf, get; simpl.
  intros H1 H2 <- Hget. f_equal.
  apply (nth_ext _ _ 0%R 0%R); [congruence|].
  intros k Hk. rewrite H1 in Hk.
  specialize (Hget _ (unravel_in_bounds _ Hk)).
  now rewrite ravel_unravel in Hget.
Qed.

Lemma Forall_get (P : R -> Prop) (t : Tensor) (idx : list nat) :
  wf t -> Forall P (data t) -> in_bounds idx (shape t) -> P (get t idx).
Proof.
  intros Hwf HP H. unfold get.
  rewrite Forall_forall in HP. apply HP, nth_In.
  rewrite Hwf. now apply ravel_lt.
Qed.


(** ** Broadcasting *)

Lemma bdim_refl (d : nat) : bdim d d = Some d.
Proof. unfold bdim. now rewrite Nat.eqb_refl. Qed.

Lemma bdim_absorb (d1 d2 d : nat) :
  bdim d1 d2 = Some d -> bdim d d1 = Some d /\ bdim d d2 = Some d.
Proof.
  unfold bdim.
  destruct (Nat.eqb_spec d1 d2) as [->|Hne].
  - intros [= ->]. now rewrite Nat.eqb_refl.
  - destruct (Nat.eqb_spec d1 1) as [->|H1].
    + intros [= ->]. rewrite Nat.eqb_refl.
      destruct (Nat.eqb_spec d 1); [congruence|]. now simpl.
    + destruct (Nat.eqb_spec d2 1) as [->|H2]; [|discriminate].
      intros [= ->]. rewrite Nat.eqb_refl.
      destruct (Nat.eqb_spec d 1); [congruence|]. now simpl.
Qed.

Lemma bdim_index (d1 d2 d i : nat) :
  bdim d1 d2 = Some d -> (i < d)%nat ->
  ((if (d1 =? 1)%nat then 0 else i) < d1)%nat /\
  ((if (d2 =? 1)%nat then 0 else i) < d2)%nat.
Proof.
  unfold bdim.
  destruct (Nat.eqb_spec d1 d2) as [->|Hne].
  - intros [= ->] Hi. destruct (Nat.eqb_spec d 1); lia.
  - destruct (Nat.eqb_spec d1 1) as [->|H1].
    + intros [= ->] Hi. destruct (Nat.eqb_spec d 1); lia.
    + destruct (Nat.eqb_spec d2 1) as [->|H2]; [|discriminate].
      intros [= ->] Hi. lia.
Qed.

Lemma bshape_rev_refl (r : list nat) : bshape_rev r r = Some r.
Proof.
  induction r as [|d r IH]; simpl; [reflexivity|].
  now rewrite bdim_refl, IH.
Qed.

Lemma bshape_rev_nil_r (r : list nat) : bshape_rev r [] = Some r.
Proof. now destruct r. Qed.

Lemma bshape_rev_absorb (r1 : list nat) :
  forall r2 r, bshape_rev r1 r2 = Some r ->
               bshape_rev r r1 = Some r /\ bshape_rev r r2 = Some r.
Proof.
  induction r1 as [|d1 t1 IH]; intros r2 r H.
  - simpl in H. injection H as <-.
    split; [apply bshape_rev_nil_r | apply bshape_rev_refl].
  - destruct r2 as [|d2 t2].
    + simpl in H. injection H as <-.
      split; [apply bshape_rev_refl | reflexivity].
    + simpl in H.
      destruct (bdim d1 d2) as [d|] eqn:Hd; [|discriminate].
      destruct (bshape_rev t1 t2) as [t|] eqn:Ht; [|discriminate].
      injection H as <-.
      destruct (bdim_absorb _ _ Hd) as [Hd1 Hd2].
      destruct (IH _ _ Ht) as [Ht1 Ht2].
      simpl. now rewrite Hd1, Hd2, Ht1, Ht2.
Qed.

Lemma bidx_rev_id (ri rs : list nat) :
  Forall2 lt ri rs -> bidx_rev rs ri = ri.
Proof.
  induction 1 as [|i d ri rs Hlt _ IH]; simpl; [reflexivity|].
  rewrite IH. destruct (Nat.eqb_spec d 1); [f_equal; lia | reflexivity].
Qed.

Lemma bidx_rev_in_bounds (r1 : list nat) :
  forall r2 r ri, bshape_rev r1 r2 = Some r -> Forall2 lt ri r ->
                  Forall2 lt (bidx_rev r1 ri) r1 /\ Forall2 lt (bidx_rev r2 ri) r2.
Proof.
  induction r1 as [|d1 t1 IH]; intros r2 r ri H Hri.
  - simpl in H. injection H as <-. split; [constructor|].
    now rewrite bidx_rev_id.
  - destruct r2 as [|d2 t2].
    + simpl in H. injection H as <-. split; [now rewrite bidx_rev_id|].
      destruct ri; constructor.
    + simpl in H.
      destruct (bdim d1 d2) as [d|] eqn:Hd; [|discriminate].
      destruct (bshape_rev t1 t2) as [t|] eqn:Ht; [|discriminate].
      injection H as <-.
      inversion Hri as [|i d' ti t' Hi Hti]; subst.
      destruct (bdim_index _ _ Hd Hi) as [Hi1 Hi2].
      destruct (IH _ _ _ Ht Hti) as [IH1 IH2].
      simpl. split; constructor; assumption.
Qed.

Lemma bshape_refl (sh : list nat) : bshape sh sh = Some sh.
Proof.
  unfold bshape. rewrite bshape_rev_refl. simpl. now rewrite rev_involutive.
Qed.

Lemma bshape_absorb (s1 s2 sh : list nat) :
  bshape s1 s2 = Some sh -> bshape sh s1 = Some sh /\ bshape sh s2 = Some sh.
Proof.
  unfold bshape. intros H.
  destruct (bshape_rev (rev s1) (rev s2)) as [r|] eqn:Hr; [|discriminate].
  simpl in H. injection H as <-.
  destruct (bshape_rev_absorb _ _ Hr) as [H1 H2].
  rewrite rev_involutive, H1, H2. now simpl.
Qed.

Lemma bidx_id (sh idx : list nat) : in_bounds idx sh -> bidx sh idx = idx.
Proof.
  intros H. unfold bidx.
  rewrite (bidx_rev_id (Forall2_rev H)). apply rev_involutive.
Qed.

Lemma bidx_in_bounds (s1 s2 sh idx : list nat) :
  bshape s1 s2 = Some sh -> in_bounds idx sh ->
  in_bounds (bidx s1 idx) s1 /\ in_bounds (bidx s2 idx) s2.
Proof.
  unfold bshape, bidx, in_bounds. intros H Hidx.
  destruct (bshape_rev (rev s1) (rev s2)) as [r|] eqn:Hr; [|discriminate].
  simpl in H. injection H as <-.
  apply Forall2_rev in Hidx. rewrite rev_involutive in Hidx.
  destruct (bidx_rev_in_bounds _ _ Hr Hidx) as [H1 H2].
  apply Forall2_rev in H1, H2. now rewrite rev_involutive in H1, H2.
Qed.

(** ** How [entrywise] composes *)

Lemma entrywise_tensor (t : Tensor) : wf t -> entrywise (Some t) (shape t) (get t).
Proof.
  intros Hwf. exists t. repeat split; auto.
Qed.

Lemma entrywise_ext (r : result) (sh : list nat) (g g' : list nat -> R) :
  entrywise r sh g -> (forall idx, in_bounds idx sh -> g idx = g' idx) ->
  entrywise r sh g'.
Proof.
  intros (t & Hr & Hwf & Hsh & Hget) Hext.
  exists t. repeat split; auto.
  intros idx Hidx. rewrite Hget by assumption. now apply Hext.
Qed.

Lemma entrywise_map (f : R -> R) (r : result) (sh : list nat) (g : list nat -> R) :
  entrywise r sh g -> entrywise (option_map (tmap f) r) sh (fun idx => f (g idx)).
Proof.
  intros (t & -> & Hwf & Hsh & Hget).
  exists (tmap f t). simpl. repeat split; auto using wf_tmap.
  intros idx Hidx. rewrite get_tmap; [now rewrite Hget | assumption | now rewrite Hsh].
Qed.

Lemma entrywise_broadcast (f : R -> R -> R) (x y : result)
      (s1 s2 sh : list nat) (g1 g2 : list nat -> R) :
  entrywise x s1 g1 -> entrywise y s2 g2 -> bshape s1 s2 = Some sh ->
  entrywise (lift2 f x y) sh (fun idx => f (g1 (bidx s1 idx)) (g2 (bidx s2 idx))).
Proof.
  intros (a & -> & Hwa & Hsa & Hga) (b & -> & Hwb & Hsb & Hgb) Hsh.
  unfold lift2, broadcast_binary; simpl. rewrite Hsa, Hsb, Hsh; simpl.
  eexists. split; [reflexivity|].
  split; [apply wf_tabulate|]. split; [reflexivity|].
  intros idx Hidx. rewrite get_tabulate by assumption.
  destruct (bidx_in_bounds _ _ Hsh Hidx) as [H1 H2].
  now rewrite Hga, Hgb.
Qed.

(** Both operands already have the shape of the result. *)
Lemma entrywise_zip (f : R -> R -> R) (x y : result)
      (sh : list nat) (g1 g2 : list nat -> R) :
  entrywise x sh g1 -> entrywise y sh g2 ->
  entrywise (lift2 f x y) sh (fun idx => f (g1 idx) (g2 idx)).
Proof.
  intros Hx Hy.
  eapply entrywise_ext.
  - exact (entrywise_broadcast f Hx Hy (bshape_refl sh)).
  - intros idx Hidx. simpl. now rewrite bidx_id.
Qed.

(** The left operand has the shape of the result, the right one is
    broadcast to it. *)
Lemma entrywise_broadcast_r (f : R -> R -> R) (x y : result)
      (sh s2 : list nat) (g1 g2 : list nat -> R) :
  entrywise x sh g1 -> entrywise y s2 g2 -> bshape sh s2 = Some sh ->
  entrywise (lift2 f x y) sh (fun idx => f (g1 idx) (g2 (bidx s2 idx))).
Proof.
  intros Hx Hy Hsh.
  eapply entrywise_ext.
  - exact (entrywise_broadcast f Hx Hy Hsh).
  - intros idx Hidx. simpl. now rewrite bidx_id.
Qed.

(** Two computations with the same entries return the same tensor. *)
Lemma entrywise_eq (r r' : result) (sh : list nat) (g : list nat -> R) :
  entrywise r sh g -> entrywise r' sh g -> r = r'.
Proof.
  intros (t & -> & Hwf & Hsh & Hget) (t' & -> & Hwf' & Hsh' & Hget').
  f_equal. apply tensor_ext; auto; [congruence|].
  intros idx Hidx. rewrite Hsh in Hidx. now rewrite Hget, Hget'.
Qed.

Lemma lift2_error_l (f : R -> R -> R) (y : result) : lift2 f None y = None.
Proof. reflexivity. Qed.

Lemma lift2_error_r (f : R -> R -> R) (x : result) : lift2 f x None = None.
Proof. now destruct x. Qed.

(** ** The Beta distribution *)

Section BetaProperties.
Context {F : Backend}.

(** The closed form of the log-density at one entry. *)
Lemma log_prob_entrywise (self : Beta) (x : Tensor) (sh : list nat) :
  Beta_wf self -> wf x -> bshape (batch_shape self) (shape x) = Some sh ->
  entrywise (log_prob self x) sh (fun idx =>
    let a := get (alpha self) (bidx (batch_shape self) idx) in
    let b := get (beta self) (bidx (batch_shape self) idx) in
    let v := get x (bidx (shape x) idx) in
    (a - 1) * F_log v + (b - 1) * F_log (1 - v)
    - F_gammaln a - F_gammaln b + F_gammaln (a + b))%R.
Proof.
  intros (Hwa & Hwb & Hab) Hwx Hsh. unfold batch_shape in *.
  pose proof (entrywise_tensor Hwa) as Ea.
  pose proof (entrywise_tensor Hwb) as Eb. rewrite <- Hab in Eb.
  pose proof (entrywise_tensor Hwx) as Ex.
  destruct (bshape_absorb _ _ Hsh) as [Hsa _].
  unfold log_prob.
  pose proof (entrywise_broadcast Rmult
                (entrywise_map (fun v => v - 1)%R Ea)
                (entrywise_map F_log Ex) Hsh) as T1.
  pose proof (entrywise_broadcast Rmult
                (entrywise_map (fun v => v - 1)%R Eb)
                (entrywise_map F_log (entrywise_map (fun v => 1 - v)%R Ex)) Hsh) as T2.
  pose proof (entrywise_zip Rplus T1 T2) as T3.
  pose proof (entrywise_broadcast_r Rminus T3 (entrywise_map F_gammaln Ea) Hsa) as T4.
  pose proof (entrywise_broadcast_r Rminus T4 (entrywise_map F_gammaln Eb) Hsa) as T5.
  pose proof (entrywise_broadcast_r Rplus T5
                (entrywise_map F_gammaln (entrywise_zip Rplus Ea Eb)) Hsa) as T6.
  exact T6.
Qed.

Lemma mean_entrywise (self : Beta) :
  Beta_wf self ->
  entrywise (mean self) (batch_shape self) (fun idx =>
    get (alpha self) idx / (get (alpha self) idx + get (beta self) idx))%R.
Proof.
  intros (Hwa & Hwb & Hab). unfold batch_shape, mean.
  pose proof (entrywise_tensor Hwa) as Ea.
  pose proof (entrywise_tensor Hwb) as Eb. rewrite <- Hab in Eb.
  exact (entrywise_zip Rdiv Ea (entrywise_zip Rplus Ea Eb)).
Qed.

Lemma variance_entrywise (self : Beta) :
  Beta_wf self ->
  entrywise (variance self) (batch_shape self) (fun idx =>
    let a := get (alpha self) idx in
    let b := get (beta self) idx in
    (a * b) / ((a + b) * (a + b) * (a + b + 1)))%R.
Proof.
  intros (Hwa & Hwb & Hab). unfold batch_shape, variance.
  pose proof (entrywise_tensor Hwa) as Ea.
  pose proof (entrywise_tensor Hwb) as Eb. rewrite <- Hab in Eb.
  pose proof (entrywise_zip Rplus Ea Eb) as Es.
  exact (entrywise_zip Rdiv (entrywise_zip Rmult Ea Eb)
           (entrywise_zip Rmult (entrywise_map (fun v => v * v)%R Es)
                                (entrywise_map (fun v => v + 1)%R Es))).
Qed.

(** C1. For a Beta instance and an input [x] whose shape broadcasts with
    the batch shape, [log_prob x] returns the tensor of the broadcast shape
    whose entries are
    (alpha-1)*log(x) + (beta-1)*log(1-x) - gammaln(alpha) - gammaln(beta)
    + gammaln(alpha+beta), with [log] and [gammaln] the backend's
    functions; when the shapes do not broadcast the backend's error comes
    back. *)
Theorem log_prob_closed_form (self : Beta) (x : Tensor) :
  Beta_wf self -> wf x ->
  match bshape (batch_shape self) (shape x) with
  | Some sh =>
      entrywise (log_prob self x) sh (fun idx =>
        let a := get (alpha self) (bidx (batch_shape self) idx) in
        let b := get (beta self) (bidx (batch_shape self) idx) in
        let v := get x (bidx (shape x) idx) in
        (a - 1) * F_log v + (b - 1) * F_log (1 - v)
        - F_gammaln a - F_gammaln b + F_gammaln (a + b))%R
  | None => log_prob self x = None
  end.
Proof.
  intros Hself Hx.
  destruct (bshape (batch_shape self) (shape x)) as [sh|] eqn:Hsh.
  - now apply log_prob_entrywise.
  - unfold log_prob, batch_shape in *.
    unfold t_add, t_sub, t_mul, t_sub_scalar, t_log. simpl.
    assert (E : broadcast_binary Rmult
                  (tmap (fun v => (v - 1)%R) (alpha self)) (tmap F_log x) = None)
      by (unfold broadcast_binary; simpl; now rewrite Hsh).
    rewrite E. reflexivity.
Qed.

(** C4. The mean of a Beta instance is alpha / (alpha + beta) entry by
    entry, and its shape is the batch shape. *)
Theorem mean_closed_form (self : Beta) :
  Beta_wf self ->
  exists m, mean self = Some m /\ wf m /\ shape m = batch_shape self /\
    forall idx, in_bounds idx (batch_shape self) ->
      get m idx = (get (alpha self) idx
                   / (get (alpha self) idx + get (beta self) idx))%R.
Proof.
  intros H. exact (mean_entrywise H).
Qed.

(** C5. The variance of a Beta instance is
    (alpha*beta) / ((alpha+beta)^2 * (alpha+beta+1)) entry by entry, and
    the standard deviation is the backend's square root applied to every
    entry of the variance. *)
Theorem variance_stddev_closed_form (self : Beta) :
  Beta_wf self ->
  exists v, variance self = Some v /\ wf v /\ shape v = batch_shape self /\
    (forall idx, in_bounds idx (batch_shape self) ->
       let a := get (alpha self) idx in
       let b := get (beta self) idx in
       get v idx = ((a * b) / ((a + b) ^ 2 * (a + b + 1)))%R) /\
    stddev self = Some (tmap F_sqrt v) /\
    (forall idx, in_bounds idx (batch_shape self) ->
       get (tmap F_sqrt v) idx = F_sqrt (get v idx)).
Proof.
  intros H. destruct (variance_entrywise H) as (v & Hv & Hwf & Hsh & Hget).
  exists v. repeat split; auto.
  - intros idx Hidx a b. rewrite Hget by assumption.
    subst a b. apply f_equal. ring.
  - unfold stddev. now rewrite Hv.
  - intros idx Hidx. apply get_tmap; [assumption | now rewrite Hsh].
Qed.




(** C8. For Beta(1, 1) with all-ones parameter tensors, and a backend whose
    [gammaln] vanishes at 1 and at 2 as log-gamma does, every entry of the
    mean is 1/2, every entry of the variance is 1/12, and [log_prob x] is 0
    in every entry for every [x] with entries strictly between 0 and 1. *)
Theorem uniform_special_case (self : Beta) :
  Beta_wf self ->
  Forall (fun a => a = 1)%R (data (alpha self)) ->
  Forall (fun b => b = 1)%R (data (beta self)) ->
  F_gammaln 1 = 0%R -> F_gammaln 2 = 0%R ->
  entrywise (mean self) (batch_shape self) (fun _ => 1 / 2)%R /\
  entrywise (variance self) (batch_shape self) (fun _ => 1 / 12)%R /\
  forall x sh, wf x -> bshape (batch_shape self) (shape x) = Some sh ->
    Forall (fun v => 0 < v < 1)%R (data x) ->
    entrywise (log_prob self x) sh (fun _ => 0%R).
Proof.
  intros H Ha Hb G1 G2.
  pose proof H as (Hwa & Hwb & Hab). unfold batch_shape in *.
  assert (A1 : forall idx, in_bounds idx (shape (alpha self)) ->
                           get (alpha self) idx = 1%R)
    by (intros idx Hidx; now apply (Forall_get Hwa Ha)).
  assert (B1 : forall idx, in_bounds idx (shape (alpha self)) ->
                           get (beta self) idx = 1%R)
    by (intros idx Hidx; apply (Forall_get Hwb Hb); now rewrite <- Hab).
  split; [|split].
  - apply (entrywise_ext _ (mean_entrywise H)).
    intros idx Hidx. simpl. rewrite A1, B1 by assumption. lra.
  - apply (entrywise_ext _ (variance_entrywise H)).
    intros idx Hidx. simpl. rewrite A1, B1 by assumption. lra.
  - intros x sh Hwx Hsh _.
    apply (entrywise_ext _ (log_prob_entrywise H Hwx Hsh)).
    intros idx Hidx. simpl.
    destruct (bidx_in_bounds _ _ Hsh Hidx) as [Hi _].
    rewrite A1, B1 by assumption.
    replace (1 + 1)%R with 2%R by lra. rewrite G1, G2. ring.
Qed.

(** C9, in exact arithmetic.  With the entries computed without rounding,
    swapping the two shape parameters reflects the distribution about one
    half: for [x] with entries in (0,1), [log_prob] of Beta(alpha, beta) at
    [x] and [log_prob] of Beta(beta, alpha) at [1 - x] return the same
    tensor, for all alpha and beta; and wherever alpha + beta is not zero,
    so that the quotient is defined, the mean of Beta(alpha, beta) is 1
    minus the mean of Beta(beta, alpha). *)
Theorem swap_reflects (self : Beta) (x : Tensor) (sh : list nat) :
  Beta_wf self -> wf x ->
  bshape (batch_shape self) (shape x) = Some sh ->
  Forall (fun v => 0 < v < 1)%R (data x) ->
  let swapped := mkBeta (beta self) (alpha self) in
  (exists r, log_prob self x = Some r /\
             log_prob swapped (tmap reflect_entry x) = Some r) /\
  ((forall idx, in_bounds idx (batch_shape self) ->
      (get (alpha self) idx + get (beta self) idx <> 0)%R) ->
   exists m, mean self = Some m /\ (1 .- mean swapped)%T = Some m).
Proof.
  intros H Hwx Hsh _ swapped.
  change (@reflect_entry R exact_arith) with (fun v => 1 - v)%R.
  pose proof H as (Hwa & Hwb & Hab).
  assert (H' : Beta_wf swapped) by (repeat split; auto).
  assert (Hbs : batch_shape swapped = batch_shape self)
    by (unfold batch_shape; simpl; congruence).
  split.
  - pose proof (log_prob_entrywise H Hwx Hsh) as E.
    assert (Hwx' : wf (tmap (fun v => 1 - v)%R x)) by now apply wf_tmap.
    assert (Hsh' : bshape (batch_shape swapped)
                          (shape (tmap (fun v => 1 - v)%R x)) = Some sh)
      by (rewrite Hbs; exact Hsh).
    pose proof (log_prob_entrywise H' Hwx' Hsh') as E'.
    assert (E'' : entrywise (log_prob self x) sh (fun idx =>
              let a := get (alpha swapped) (bidx (batch_shape swapped) idx) in
              let b := get (beta swapped) (bidx (batch_shape swapped) idx) in
              let v := get (tmap (fun v => 1 - v)%R x)
                           (bidx (shape (tmap (fun v => 1 - v)%R x)) idx) in
              (a - 1) * F_log v + (b - 1) * F_log (1 - v)
              - F_gammaln a - F_gammaln b + F_gammaln (a + b))%R).
    { apply (entrywise_ext _ E). intros idx Hidx. simpl.
      destruct (bidx_in_bounds _ _ Hsh Hidx) as [_ Hix].
      rewrite Hbs, get_tmap by assumption.
      replace (1 - (1 - get x (bidx (shape x) idx)))%R
        with (get x (bidx (shape x) idx)) by ring.
      rewrite (Rplus_comm (get (beta self) _)). ring. }
    destruct E'' as (r & Hr & Hrest).
    exists r. split; [exact Hr|].
    symmetry. rewrite <- Hr.
    apply (entrywise_eq (sh := sh) (ex_intro _ r (conj Hr Hrest)) E').
  - intros Hne.
    pose proof (mean_entrywise H) as E.
    pose proof (entrywise_map (fun v => 1 - v)%R (mean_entrywise H')) as E'.
    rewrite Hbs in E'.
    assert (E'' : entrywise (mean self) (batch_shape self) (fun idx =>
              1 - get (alpha swapped) idx
                  / (get (alpha swapped) idx + get (beta swapped) idx))%R).
    { apply (entrywise_ext _ E). intros idx Hidx. simpl.
      specialize (Hne idx Hidx).
      field. rewrite Rplus_comm. exact Hne. }
    destruct E'' as (m & Hm & Hrest).
    exists m. split; [exact Hm|].
    symmetry. rewrite <- Hm.
    apply (entrywise_eq (ex_intro _ m (conj Hm Hrest)) E').
Qed.

End BetaProperties.

(** C9 as the spec words it fails in the backend's binary32.  For
    alpha = 1 and beta = 2 the mean of Beta(alpha, beta) is not 1 minus the
    mean of Beta(beta, alpha): the two differ in the last place.  And for
    x = 2^-30, strictly between 0 and 1, the point 1 - x at which the
    exchanged instance is evaluated rounds to 1, outside (0,1), and its own
    reflection 1 - (1 - x) is 0, not x: the exchanged [log_prob] takes the
    logarithm of 0 where the original takes the logarithm of 1. *)
Lemma swap_reflects_binary32 :
  let one := b32_of_Z 1 in
  let two := b32_of_Z 2 in
  let x := b32_two_pow_minus_30 in
  b32_eq (mean_entry one two) (reflect_entry (mean_entry two one)) = false /\
  (b32_lt b32_zero x = true /\ b32_lt x one = true /\
   reflect_entry x = one /\
   reflect_entry (reflect_entry x) = b32_zero /\
   b32_eq (reflect_entry (reflect_entry x)) x = false).
Proof. vm_compute. repeat split. Qed.

(** ** Sampling *)

Section SamplingProperties.
Context {F : Backend}.

Lemma draw_all_length (ps : list (R * R)) :
  forall g, length (fst (draw_all ps g)) = length ps.
Proof.
  induction ps as [|[a b] ps IH]; intros g; simpl; [reflexivity|].
  destruct (gamma_variate a b g) as [v g1].
  specialize (IH g1). destruct (draw_all ps g1) as [vs g2].
  simpl in *. now rewrite IH.
Qed.


Lemma combine_ones (l : list R) :
  combine l (map (fun _ => 1%R) l) = map (fun a => (a, 1%R)) l.
Proof.
  induction l as [|a l IH]; simpl; [reflexivity | now rewrite IH].
Qed.

(** A draw with unit scales: one variate per entry of the shape parameter,
    in the shape of the parameter. *)
Lemma sample_gamma_ones_like (t : Tensor) (g : rng) :
  let draws := draw_all (map (fun a => (a, 1%R)) (data t)) g in
  sample_gamma t (ones_like t) g = Some (mkTensor (shape t) (fst draws), snd draws).
Proof.
  unfold sample_gamma, ones_like, tmap; simpl.
  destruct (list_eq_dec Nat.eq_dec (shape t) (shape t)) as [_|Hne];
    [|now elim Hne].
  rewrite combine_ones. now destruct (draw_all _ g).
Qed.

Lemma wf_draws (t : Tensor) (g : rng) :
  wf t ->
  wf (mkTensor (shape t) (fst (draw_all (map (fun a => (a, 1%R)) (data t)) g))).
Proof.
  unfold wf; simpl. intros H. now rewrite draw_all_length, length_map.
Qed.

(** One run of the inner function [s]. *)
Lemma s_entrywise (self : Beta) (g : rng) :
  Beta_wf self ->
  let dx := draw_all (map (fun a => (a, 1%R)) (data (alpha self))) g in
  let X := mkTensor (batch_shape self) (fst dx) in
  let dy := draw_all (map (fun b => (b, 1%R)) (data (beta self))) (snd dx) in
  let Y := mkTensor (batch_shape self) (fst dy) in
  exists r, s (alpha self) (beta self) g = Some (r, snd dy) /\
            wf r /\ shape r = batch_shape self /\
            forall idx, in_bounds idx (batch_shape self) ->
              get r idx = (get X idx / (get X idx + get Y idx))%R.
Proof.
  intros (Hwa & Hwb & Hab) dx X dy Y. unfold batch_shape in *.
  assert (HwX : wf X) by (apply wf_draws; assumption).
  assert (HwY : wf Y)
    by (subst Y; rewrite Hab; apply wf_draws; assumption).
  pose proof (entrywise_tensor HwX) as EX.
  pose proof (entrywise_tensor HwY) as EY.
  destruct (entrywise_zip Rdiv EX (entrywise_zip Rplus EX EY))
    as (r & Hr & Hwr & Hsr & Hgr).
  exists r. repeat split; auto.
  unfold s, sbind.
  rewrite sample_gamma_ones_like. fold dx. fold X.
  rewrite sample_gamma_ones_like. rewrite <- Hab. fold dy. fold Y.
  unfold slift, t_div, t_add. now rewrite Hr.
Qed.


Lemma length_concat_uniform (n : nat) (ls : list (list R)) :
  Forall (fun l => length l = n) ls -> length (concat ls) = (length ls * n)%nat.
Proof.
  induction 1 as [|l ls Hl _ IH]; simpl; [reflexivity|].
  rewrite length_app, IH, Hl. reflexivity.
Qed.

Lemma stack_uniform (sh : list nat) (ts : list Tensor) :
  ts <> [] -> Forall (fun t => wf t /\ shape t = sh) ts ->
  stack ts = Some (mkTensor (length ts :: sh) (concat (map data ts))) /\
  wf (mkTensor (length ts :: sh) (concat (map data ts))).
Proof.
  intros Hne Hall. split.
  - destruct ts as [|t ts]; [contradiction|]. unfold stack.
    assert (Ht : shape t = sh) by (inversion Hall; tauto).
    rewrite Ht.
    replace (forallb _ (t :: ts)) with true; [reflexivity|].
    symmetry. apply forallb_forall. intros u Hu.
    rewrite Forall_forall in Hall. destruct (Hall u Hu) as [_ Hsu].
    now destruct (list_eq_dec Nat.eq_dec (shape u) sh).
  - unfold wf; simpl.
    rewrite (length_concat_uniform (n := size sh)), length_map; [reflexivity|].
    apply Forall_map. eapply Forall_impl; [|exact Hall].
    intros t [Hw Hs]. unfold wf in Hw. congruence.
Qed.



Lemma nth_map_combine (f : R * R -> R) (xs ys : list R) (k : nat) :
  length xs = length ys -> (k < length xs)%nat ->
  nth k (map f (combine xs ys)) 0%R = f (nth k xs 0%R, nth k ys 0%R).
Proof.
  intros Hlen Hk.
  rewrite (nth_indep _ 0%R (f (0%R, 0%R)))
    by (rewrite length_map, length_combine; lia).
  rewrite map_nth. now rewrite combine_nth.
Qed.

(** One run of [s] returns the tensor of the quotients listed by
    [sample_run]. *)
Lemma s_value (self : Beta) (g : rng) :
  Beta_wf self ->
  let run := sample_run (alpha self) (beta self) g in
  s (alpha self) (beta self) g
  = Some (mkTensor (batch_shape self) (fst run), snd run) /\
  wf (mkTensor (batch_shape self) (fst run)).
Proof.
  intros H run. pose proof H as (Hwa & Hwb & Hab).
  destruct (s_entrywise g H) as (r & Hr & Hwr & Hsr & Hgr).
  set (dx := draw_all (map (fun a => (a, 1%R)) (data (alpha self))) g) in *.
  set (dy := draw_all (map (fun b => (b, 1%R)) (data (beta self))) (snd dx)) in *.
  assert (Hlx : length (fst dx) = size (batch_shape self))
    by (unfold dx, batch_shape; now rewrite draw_all_length, length_map).
  assert (Hly : length (fst dy) = size (batch_shape self))
    by (unfold dy, batch_shape; rewrite draw_all_length, length_map, Hwb;
        now rewrite Hab).
  assert (Hwf : wf (mkTensor (batch_shape self) (fst run))).
  { unfold wf, run, sample_run; simpl. fold dx. fold dy.
    rewrite length_map, length_combine. lia. }
  split; [|exact Hwf].
  rewrite Hr. unfold run at 2, sample_run; simpl. fold dx. fold dy.
  f_equal. f_equal.
  apply tensor_ext; [assumption | assumption | exact Hsr |].
  intros idx Hidx. rewrite Hsr in Hidx. rewrite (Hgr _ Hidx).
  unfold get, run, sample_run; simpl. fold dx. fold dy.
  rewrite nth_map_combine; [reflexivity | congruence |].
  rewrite Hlx. now apply ravel_lt.
Qed.

Lemma repeat_draws_runs (self : Beta) :
  Beta_wf self ->
  forall n g,
    repeat_draws n (s (alpha self) (beta self)) g
    = Some (map (mkTensor (batch_shape self))
                (fst (sample_runs (alpha self) (beta self) n g)),
            snd (sample_runs (alpha self) (beta self) n g)).
Proof.
  intros H. induction n as [|n IH]; intros g; [reflexivity|].
  cbn [repeat_draws sample_runs]. unfold sbind.
  rewrite (proj1 (s_value g H)).
  destruct (sample_run (alpha self) (beta self) g) as [d g1]. cbn [fst snd].
  rewrite IH.
  now destruct (sample_runs (alpha self) (beta self) n g1) as [ds g2].
Qed.

Lemma sample_runs_length (alpha beta : Tensor) :
  forall n g, length (fst (sample_runs alpha beta n g)) = n.
Proof.
  induction n as [|n IH]; intros g; [reflexivity|].
  cbn [sample_runs].
  destruct (sample_run alpha beta g) as [d g1].
  specialize (IH g1). destruct (sample_runs alpha beta n g1) as [ds g2].
  simpl in *. now rewrite IH.
Qed.

Lemma sample_runs_wf (self : Beta) :
  Beta_wf self ->
  forall n g, Forall (fun t => wf t /\ shape t = batch_shape self)
                (map (mkTensor (batch_shape self))
                     (fst (sample_runs (alpha self) (beta self) n g))).
Proof.
  intros H. induction n as [|n IH]; intros g; [constructor|].
  cbn [sample_runs].
  pose proof (proj2 (s_value g H)) as Hwf.
  destruct (sample_run (alpha self) (beta self) g) as [d g1]. simpl in Hwf.
  specialize (IH g1).
  destruct (sample_runs (alpha self) (beta self) n g1) as [ds g2].
  simpl in *. constructor; [now split | assumption].
Qed.

Lemma concat_data_mkTensor (sh : list nat) (ds : list (list R)) :
  concat (map data (map (mkTensor sh) ds)) = concat ds.
Proof.
  rewrite map_map. simpl. now rewrite map_id.
Qed.

(** [sample] with a positive count, as a value. *)
Lemma sample_count_value (self : Beta) (N : nat) (g : rng) :
  Beta_wf self -> (0 < N)%nat ->
  let runs := sample_runs (alpha self) (beta self) N g in
  sample self (Some N) g
  = Some (mkTensor (N :: batch_shape self) (concat (fst runs)), snd runs) /\
  wf (mkTensor (N :: batch_shape self) (concat (fst runs))).
Proof.
  intros H HN runs.
  pose proof (sample_runs_length (alpha self) (beta self) N g) as Hlen.
  pose proof (sample_runs_wf H N g) as Hall. fold runs in Hlen, Hall.
  assert (Hne : map (mkTensor (batch_shape self)) (fst runs) <> [])
    by (intros E; apply (f_equal (@length _)) in E;
        rewrite length_map, Hlen in E; simpl in E; lia).
  destruct (stack_uniform Hne Hall) as [Hst Hwf].
  rewrite length_map, Hlen, concat_data_mkTensor in Hst, Hwf.
  split; [|exact Hwf].
  unfold sample, _sample_multiple, sbind.
  rewrite (repeat_draws_runs H N g). fold runs.
  unfold slift. now rewrite Hst.
Qed.

(** C3. [sample] draws X from the backend's gamma sampler with the entries
    of alpha as shapes and unit scales ([ones_like]), then Y likewise from
    beta with the random state X left behind, both in the batch shape, and
    returns X / (X + Y) entry by entry; without a count the result has the
    batch shape; with a positive count N it has shape (N, batch shape) and
    holds, one after the other, the quotients of N such runs, each run
    starting from the random state the previous one left. *)
Theorem sample_gamma_ratio (self : Beta) (g : rng) :
  Beta_wf self ->
  let dx := draw_all (map (fun a => (a, 1%R)) (data (alpha self))) g in
  let dy := draw_all (map (fun b => (b, 1%R)) (data (beta self))) (snd dx) in
  let X := mkTensor (batch_shape self) (fst dx) in
  let Y := mkTensor (batch_shape self) (fst dy) in
  sample_gamma (alpha self) (ones_like (alpha self)) g = Some (X, snd dx) /\
  sample_gamma (beta self) (ones_like (beta self)) (snd dx) = Some (Y, snd dy) /\
  (exists r, sample self None g = Some (r, snd dy) /\
             wf r /\ shape r = batch_shape self /\
             forall idx, in_bounds idx (batch_shape self) ->
               get r idx = (get X idx / (get X idx + get Y idx))%R) /\
  (forall N, (0 < N)%nat ->
     exists r g', sample self (Some N) g = Some (r, g') /\
                  wf r /\ shape r = N :: batch_shape self /\
                  data r = concat (fst (sample_runs (alpha self) (beta self) N g)) /\
                  g' = snd (sample_runs (alpha self) (beta self) N g)).
Proof.
  intros H dx dy X Y. pose proof H as (Hwa & Hwb & Hab).
  split; [|split; [|split]].
  - apply sample_gamma_ones_like.
  - subst Y. unfold batch_shape. rewrite Hab. apply sample_gamma_ones_like.
  - exact (s_entrywise g H).
  - intros N HN.
    destruct (sample_count_value g H HN) as [Hv Hwf].
    do 2 eexists. split; [exact Hv|]. repeat split. exact Hwf.
Qed.


End SamplingProperties.



(** ** The output head *)

Lemma softplus_scalar_pos (v : R) : (0 < softplus_scalar v)%R.
Proof.
  unfold softplus_scalar. rewrite <- ln_1.
  apply ln_increasing; [lra|]. pose proof (exp_pos v). lra.
Qed.

Lemma squeeze_last_singleton (batch : list nat) (d : list R) :
  squeeze_last (mkTensor (batch ++ [1%nat]) d)
  = Some (mkTensor (at_least_one_axis batch) d).
Proof.
  unfold squeeze_last; simpl. rewrite rev_app_distr; simpl.
  now rewrite rev_involutive.
Qed.

Lemma at_least_one_axis_nonempty (sh : list nat) :
  sh <> [] -> at_least_one_axis sh = sh.
Proof. now destruct sh. Qed.

Lemma size_at_least_one_axis (sh : list nat) : size (at_least_one_axis sh) = size sh.
Proof. now destruct sh. Qed.

Lemma ravel_at_least_one_axis (sh idx : list nat) :
  in_bounds idx sh -> ravel (at_least_one_axis sh) idx = ravel sh idx.
Proof. intros H. now destruct H. Qed.

(** What [domain_map] returns on inputs with a trailing singleton axis. *)
Lemma domain_map_value (alpha beta : Tensor) (sa sb : list nat) :
  shape alpha = sa ++ [1%nat] -> shape beta = sb ++ [1%nat] ->
  domain_map alpha beta =
  Some (mkTensor (at_least_one_axis sa)
                 (map (fun v => softplus_scalar v + 1e-8)%R (data alpha)),
        mkTensor (at_least_one_axis sb)
                 (map (fun v => softplus_scalar v + 1e-8)%R (data beta))).
Proof.
  intros Ha Hb. unfold domain_map, softplus, t_add_scalar, tmap; simpl.
  rewrite Ha, Hb, !squeeze_last_singleton, !map_map. reflexivity.
Qed.

Lemma wf_squeezed (f : R -> R) (t : Tensor) (batch : list nat) :
  wf t -> shape t = batch ++ [1%nat] ->
  wf (mkTensor (at_least_one_axis batch) (map f (data t))).
Proof.
  unfold wf; simpl. intros Hwf Hsh.
  rewrite length_map, Hwf, Hsh, size_app, size_at_least_one_axis. simpl; lia.
Qed.

Lemma get_squeezed (f : R -> R) (t : Tensor) (batch idx : list nat) :
  wf t -> shape t = batch ++ [1%nat] -> in_bounds idx batch ->
  get (mkTensor (at_least_one_axis batch) (map f (data t))) idx
  = f (get t (idx ++ [0%nat])).
Proof.
  intros Hwf Hsh Hidx. unfold get; simpl.
  rewrite (ravel_at_least_one_axis Hidx).
  rewrite Hsh, ravel_app_singleton by now apply in_bounds_length.
  rewrite (nth_indep _ 0%R (f 0%R)); [apply map_nth|].
  rewrite length_map, Hwf, Hsh, size_app. simpl.
  pose proof (ravel_lt Hidx). lia.
Qed.

(** C2, as the code has it.  On raw tensors of shape (batch shape, 1),
    [domain_map] returns the pair (alpha, beta), in that order, of the
    inputs with softplus(x) + 1e-8 applied to every entry and the trailing
    singleton axis removed: for a non-empty batch shape the results have
    the batch shape; for the empty batch shape (raw shape (1,)) the
    backend keeps the axis and the results have shape (1,).  The entry at
    [idx] comes from the raw entry at [idx ++ [0]]. *)
Theorem domain_map_transform (alpha beta : Tensor) (batch : list nat) :
  wf alpha -> wf beta ->
  shape alpha = batch ++ [1%nat] -> shape beta = batch ++ [1%nat] ->
  exists a b, domain_map alpha beta = Some (a, b) /\
    (wf a /\ shape a = at_least_one_axis batch /\
     (batch <> [] -> shape a = batch) /\
     data a = map (fun v => softplus_scalar v + 1e-8)%R (data alpha) /\
     forall idx, in_bounds idx batch ->
       get a idx = (softplus_scalar (get alpha (idx ++ [0%nat])) + 1e-8)%R) /\
    (wf b /\ shape b = at_least_one_axis batch /\
     (batch <> [] -> shape b = batch) /\
     data b = map (fun v => softplus_scalar v + 1e-8)%R (data beta) /\
     forall idx, in_bounds idx batch ->
       get b idx = (softplus_scalar (get beta (idx ++ [0%nat])) + 1e-8)%R).
Proof.
  intros Hwa Hwb Ha Hb.
  do 2 eexists. split; [exact (@domain_map_value _ _ _ _ Ha Hb)|].
  split; (split; [|split; [reflexivity|split; [|split; [reflexivity|]]]]).
  - exact (@wf_squeezed _ _ _ Hwa Ha).
  - exact (@at_least_one_axis_nonempty batch).
  - intros idx Hidx.
    exact (get_squeezed (fun v => softplus_scalar v + 1e-8)%R Hwa Ha Hidx).
  - exact (@wf_squeezed _ _ _ Hwb Hb).
  - exact (@at_least_one_axis_nonempty batch).
  - intros idx Hidx.
    exact (get_squeezed (fun v => softplus_scalar v + 1e-8)%R Hwb Hb Hidx).
Qed.

(** C2 as the spec words it fails for the empty batch shape: a raw tensor
    of shape (1,) is not mapped to a tensor without axes. *)
Lemma domain_map_empty_batch_keeps_axis :
  wf single_raw /\ shape single_raw = [] ++ [1%nat] /\
  ~ (exists a b, domain_map single_raw single_raw = Some (a, b) /\
                 shape a = [] /\ shape b = []).
Proof.
  split; [reflexivity|]. split; [reflexivity|].
  intros (a & b & H & Ha & _).
  rewrite (@domain_map_value single_raw single_raw [] [] eq_refl eq_refl) in H.
  injection H as <- <-. discriminate Ha.
Qed.

(** C6. Whatever real entries the raw tensors hold, however negative, every
    entry of both components of [domain_map]'s output is strictly positive
    and at least 1e-8. *)
Theorem domain_map_positive (alpha beta : Tensor) (batch : list nat) :
  shape alpha = batch ++ [1%nat] -> shape beta = batch ++ [1%nat] ->
  exists a b, domain_map alpha beta = Some (a, b) /\
    Forall (fun v => 0 < v /\ 1e-8 <= v)%R (data a) /\
    Forall (fun v => 0 < v /\ 1e-8 <= v)%R (data b).
Proof.
  intros Ha Hb.
  do 2 eexists. split; [exact (@domain_map_value _ _ _ _ Ha Hb)|].
  split; simpl; apply Forall_map, Forall_forall; intros v _;
    pose proof (softplus_scalar_pos v); lra.
Qed.

(** ** The statements at concrete inputs, on the reference backend *)

Lemma lgamma_step_1 : lgamma_step 1 = 0%R.
Proof.
  unfold lgamma_step.
  replace (Int_part 1) with 1%Z by (apply Int_part_spec; lra).
  simpl. apply ln_1.
Qed.

Lemma lgamma_step_2 : lgamma_step 2 = 0%R.
Proof.
  unfold lgamma_step.
  replace (Int_part 2) with 2%Z by (apply Int_part_spec; lra).
  simpl. apply ln_1.
Qed.


Lemma log_prob_closed_form_witness :
  exists t, log_prob (F := reference_backend) example_beta example_x = Some t /\
    get t [0%nat] = ((2 - 1) * ln (1 / 2) + (5 - 1) * ln (1 - 1 / 2)
                     - lgamma_step 2 - lgamma_step 5 + lgamma_step (2 + 5))%R.
Proof.
  destruct (@log_prob_closed_form reference_backend example_beta example_x)
    as (t & Ht & _ & _ & Hget).
  - repeat split.
  - reflexivity.
  - exists t. split; [exact Ht|].
    apply (Hget [0%nat]). repeat constructor.
Defined.

Lemma domain_map_transform_witness :
  exists a b, domain_map example_raw_alpha example_raw_beta = Some (a, b) /\
    shape a = [2%nat] /\ shape b = [2%nat] /\
    get a [1%nat] = (softplus_scalar (-1000) + 1e-8)%R /\
    get b [0%nat] = (softplus_scalar 3 + 1e-8)%R.
Proof.
  destruct (@domain_map_transform example_raw_alpha example_raw_beta [2%nat])
    as (a & b & Hab & (_ & Hsa & _ & _ & Hga) & (_ & Hsb & _ & _ & Hgb));
    try reflexivity.
  exists a, b. split; [exact Hab|]. split; [exact Hsa|]. split; [exact Hsb|].
  split.
  - apply (Hga [1%nat]). repeat constructor.
  - apply (Hgb [0%nat]). repeat constructor.
Defined.

Lemma sample_gamma_ratio_witness :
  exists r g', sample (F := reference_backend) example_beta (Some 3%nat) 0%nat
               = Some (r, g') /\ shape r = [3%nat; 2%nat] /\
    data r = concat (fst (sample_runs (F := reference_backend)
                            (alpha example_beta) (beta example_beta) 3 0%nat)).
Proof.
  destruct (@sample_gamma_ratio reference_backend example_beta 0%nat)
    as (_ & _ & _ & HN).
  - repeat split.
  - destruct (HN 3%nat) as (r & g' & Hr & _ & Hsh & Hd & _); [lia|].
    exists r, g'. split; [exact Hr|]. split; [exact Hsh | exact Hd].
Defined.

Lemma mean_closed_form_witness :
  exists m, mean example_beta = Some m /\ shape m = [2%nat] /\
            get m [0%nat] = (2 / (2 + 5))%R.
Proof.
  destruct (@mean_closed_form example_beta) as (m & Hm & _ & Hsh & Hget).
  - repeat split.
  - exists m. repeat split; try assumption.
    apply (Hget [0%nat]). repeat constructor.
Defined.

Lemma variance_stddev_closed_form_witness :
  exists v, variance example_beta = Some v /\
            get v [0%nat] = (2 * 5 / ((2 + 5) ^ 2 * (2 + 5 + 1)))%R /\
            stddev (F := reference_backend) example_beta
            = Some (tmap R_sqrt.sqrt v).
Proof.
  destruct (@variance_stddev_closed_form reference_backend example_beta)
    as (v & Hv & _ & _ & Hget & Hsd & _).
  - repeat split.
  - exists v. repeat split; try assumption.
    apply (Hget [0%nat]). repeat constructor.
Defined.

Lemma domain_map_positive_witness :
  exists a b, domain_map example_raw_alpha example_raw_beta = Some (a, b) /\
    Forall (fun v => 0 < v /\ 1e-8 <= v)%R (data a) /\
    Forall (fun v => 0 < v /\ 1e-8 <= v)%R (data b).
Proof.
  apply (@domain_map_positive example_raw_alpha example_raw_beta [2%nat]);
    reflexivity.
Defined.


Lemma uniform_special_case_witness :
  entrywise (mean uniform_beta) [2%nat] (fun _ => 1 / 2)%R /\
  entrywise (variance uniform_beta) [2%nat] (fun _ => 1 / 12)%R /\
  entrywise (log_prob (F := reference_backend) uniform_beta example_x)
            [2%nat] (fun _ => 0%R).
Proof.
  destruct (@uniform_special_case reference_backend uniform_beta)
    as (Hm & Hv & Hlp).
  - repeat split.
  - simpl. repeat constructor.
  - simpl. repeat constructor.
  - exact lgamma_step_1.
  - exact lgamma_step_2.
  - split; [exact Hm|]. split; [exact Hv|].
    apply Hlp; [reflexivity | reflexivity |].
    simpl. repeat constructor; lra.
Defined.

Lemma swap_reflects_witness :
  (exists r, log_prob (F := reference_backend) example_beta example_x = Some r /\
             log_prob (F := reference_backend)
               (mkBeta (beta example_beta) (alpha example_beta))
               (tmap reflect_entry example_x) = Some r) /\
  (exists m, mean example_beta = Some m /\
             (1 .- mean (mkBeta (beta example_beta) (alpha example_beta)))%T
             = Some m).
Proof.
  destruct (@swap_reflects reference_backend example_beta example_x [2%nat])
    as [Hlp Hmean].
  - repeat split.
  - reflexivity.
  - reflexivity.
  - simpl. repeat constructor; lra.
  - split; [exact Hlp|]. apply Hmean.
    intros idx Hidx. inversion Hidx as [|i d l l' Hi Hl]; subst.
    inversion Hl; subst.
    assert (Hcase : i = 0%nat \/ i = 1%nat) by lia.
    destruct Hcase as [-> | ->]; unfold get; simpl; lra.
Defined.



(** ** Parameters of different shapes *)

Lemma bdim_comm (d1 d2 : nat) : bdim d1 d2 = bdim d2 d1.
Proof.
  unfold bdim.
  destruct (Nat.eqb_spec d1 d2) as [->|Hne].
  - now rewrite Nat.eqb_refl.
  - destruct (Nat.eqb_spec d2 d1) as [E|_]; [congruence|].
    destruct (Nat.eqb_spec d1 1), (Nat.eqb_spec d2 1); congruence.
Qed.

Lemma bshape_rev_comm (r1 : list nat) :
  forall r2, bshape_rev r1 r2 = bshape_rev r2 r1.
Proof.
  induction r1 as [|d1 t1 IH]; intros [|d2 t2]; simpl; try reflexivity.
  now rewrite bdim_comm, IH.
Qed.

Lemma bshape_comm (s1 s2 : list nat) : bshape s1 s2 = bshape s2 s1.
Proof. unfold bshape. now rewrite bshape_rev_comm. Qed.

(** The right operand has the shape of the result, the left one is
    broadcast to it. *)
Lemma entrywise_broadcast_l (f : R -> R -> R) (x y : result)
      (s1 sh : list nat) (g1 g2 : list nat -> R) :
  entrywise x s1 g1 -> entrywise y sh g2 -> bshape s1 sh = Some sh ->
  entrywise (lift2 f x y) sh (fun idx => f (g1 (bidx s1 idx)) (g2 idx)).
Proof.
  intros Hx Hy Hsh.
  eapply entrywise_ext.
  - exact (entrywise_broadcast f Hx Hy Hsh).
  - intros idx Hidx. simpl. now rewrite (bidx_id Hidx).
Qed.

Lemma broadcast_binary_mismatch (f : R -> R -> R) (a b : Tensor) :
  bshape (shape a) (shape b) = None -> broadcast_binary f a b = None.
Proof. unfold broadcast_binary. now intros ->. Qed.

Lemma mean_entrywise_broadcast (self : Beta) (sh : list nat) :
  wf (alpha self) -> wf (beta self) ->
  bshape (shape (alpha self)) (shape (beta self)) = Some sh ->
  entrywise (mean self) sh (fun idx =>
    let a := get (alpha self) (bidx (shape (alpha self)) idx) in
    let b := get (beta self) (bidx (shape (beta self)) idx) in
    a / (a + b))%R.
Proof.
  intros Hwa Hwb Hsh. unfold mean.
  pose proof (entrywise_tensor Hwa) as Ea.
  pose proof (entrywise_tensor Hwb) as Eb.
  destruct (bshape_absorb _ _ Hsh) as [Hsa _]. rewrite bshape_comm in Hsa.
  exact (entrywise_broadcast_l Rdiv Ea (entrywise_broadcast Rplus Ea Eb Hsh) Hsa).
Qed.

Lemma variance_entrywise_broadcast (self : Beta) (sh : list nat) :
  wf (alpha self) -> wf (beta self) ->
  bshape (shape (alpha self)) (shape (beta self)) = Some sh ->
  entrywise (variance self) sh (fun idx =>
    let a := get (alpha self) (bidx (shape (alpha self)) idx) in
    let b := get (beta self) (bidx (shape (beta self)) idx) in
    (a * b) / ((a + b) * (a + b) * (a + b + 1)))%R.
Proof.
  intros Hwa Hwb Hsh. unfold variance.
  pose proof (entrywise_tensor Hwa) as Ea.
  pose proof (entrywise_tensor Hwb) as Eb.
  pose proof (entrywise_broadcast Rplus Ea Eb Hsh) as Es.
  exact (entrywise_zip Rdiv (entrywise_broadcast Rmult Ea Eb Hsh)
           (entrywise_zip Rmult (entrywise_map (fun v => v * v)%R Es)
                                (entrywise_map (fun v => v + 1)%R Es))).
Qed.

Lemma mean_mismatch (self : Beta) :
  bshape (shape (alpha self)) (shape (beta self)) = None -> mean self = None.
Proof.
  intros H. unfold mean, t_div, t_add; simpl.
  now rewrite (broadcast_binary_mismatch Rplus _ _ H).
Qed.

Lemma variance_mismatch (self : Beta) :
  bshape (shape (alpha self)) (shape (beta self)) = None -> variance self = None.
Proof.
  intros H. unfold variance, t_div, t_mul, t_add; simpl.
  now rewrite (broadcast_binary_mismatch Rmult _ _ H).
Qed.

Section BroadcastParameters.
Context {F : Backend}.

(** X1. [mean] and [variance] broadcast the two parameter tensors against
    each other: when the shapes of alpha and beta broadcast to [sh], both
    return a tensor of shape [sh] (which need not be [batch_shape], the
    shape of alpha alone) holding the closed forms of the entries paired by
    broadcasting; when the shapes do not broadcast, both raise. *)
Theorem moments_broadcast_parameters (self : Beta) :
  wf (alpha self) -> wf (beta self) ->
  match bshape (shape (alpha self)) (shape (beta self)) with
  | Some sh =>
      entrywise (mean self) sh (fun idx =>
        let a := get (alpha self) (bidx (shape (alpha self)) idx) in
        let b := get (beta self) (bidx (shape (beta self)) idx) in
        a / (a + b))%R /\
      entrywise (variance self) sh (fun idx =>
        let a := get (alpha self) (bidx (shape (alpha self)) idx) in
        let b := get (beta self) (bidx (shape (beta self)) idx) in
        (a * b) / ((a + b) ^ 2 * (a + b + 1)))%R
  | None => mean self = None /\ variance self = None
  end.
Proof.
  intros Hwa Hwb.
  destruct (bshape (shape (alpha self)) (shape (beta self))) as [sh|] eqn:Hsh.
  - split.
    + now apply mean_entrywise_broadcast.
    + apply (entrywise_ext _ (variance_entrywise_broadcast self Hwa Hwb Hsh)).
      intros idx _. simpl. apply f_equal. ring.
  - split; [now apply mean_mismatch | now apply variance_mismatch].
Qed.

(** X2. Exchanging alpha and beta leaves [variance] and [stddev] unchanged:
    the two instances return the same tensor, or both raise. *)
Theorem variance_swap_invariant (self : Beta) :
  wf (alpha self) -> wf (beta self) ->
  let swapped := mkBeta (beta self) (alpha self) in
  variance swapped = variance self /\ stddev swapped = stddev self.
Proof.
  intros Hwa Hwb swapped.
  assert (Hv : variance swapped = variance self).
  { destruct (bshape (shape (alpha self)) (shape (beta self))) as [sh|] eqn:Hsh.
    - pose proof (variance_entrywise_broadcast self Hwa Hwb Hsh) as E.
      assert (Hsh' : bshape (shape (alpha swapped)) (shape (beta swapped)) = Some sh)
        by (simpl; now rewrite bshape_comm).
      pose proof (variance_entrywise_broadcast swapped Hwb Hwa Hsh') as E'.
      apply (entrywise_eq E'). apply (entrywise_ext _ E).
      intros idx _. simpl. apply f_equal2; ring.
    - rewrite (variance_mismatch self Hsh).
      apply variance_mismatch. simpl. now rewrite bshape_comm. }
  split; [exact Hv|]. unfold stddev. now rewrite Hv.
Qed.

End BroadcastParameters.

Section SamplingBroadcast.
Context {F : Backend}.

(** X5. The inner function [s] of [sample] on parameters of any two
    shapes: the gamma draws themselves never raise, because each scale
    tensor is made by [ones_like] from its shape parameter; when the two
    shapes broadcast to [sh] the result is a well-formed tensor of shape
    [sh] holding the quotients X / (X + Y) of the variates paired by
    broadcasting, and the random state left behind is the one after the
    draws for alpha and then for beta; when the shapes do not broadcast,
    [s] raises. *)
Theorem s_broadcasts_parameters (a b : Tensor) (g : rng) :
  wf a -> wf b ->
  let dx := draw_all (map (fun v => (v, 1%R)) (data a)) g in
  let dy := draw_all (map (fun v => (v, 1%R)) (data b)) (snd dx) in
  let X := mkTensor (shape a) (fst dx) in
  let Y := mkTensor (shape b) (fst dy) in
  match bshape (shape a) (shape b) with
  | Some sh =>
      exists r, s a b g = Some (r, snd dy) /\ wf r /\ shape r = sh /\
        forall idx, in_bounds idx sh ->
          get r idx = ratio_entry (get X (bidx (shape a) idx))
                                  (get Y (bidx (shape b) idx))
  | None => s a b g = None
  end.
Proof.
  intros Hwa Hwb dx dy X Y.
  assert (Hs : s a b g =
               slift (Some X / (Some X + Some Y))%T (snd dy)).
  { unfold s, sbind. rewrite sample_gamma_ones_like. fold dx. fold X.
    rewrite sample_gamma_ones_like. fold dy. fold Y. reflexivity. }
  assert (HwX : wf X) by (apply wf_draws; assumption).
  assert (HwY : wf Y) by (apply wf_draws; assumption).
  destruct (bshape (shape a) (shape b)) as [sh|] eqn:Hsh.
  - pose proof (entrywise_tensor HwX) as EX.
    pose proof (entrywise_tensor HwY) as EY. simpl in EX, EY.
    destruct (bshape_absorb _ _ Hsh) as [Hsa _]. rewrite bshape_comm in Hsa.
    destruct (entrywise_broadcast_l Rdiv EX
                (entrywise_broadcast Rplus EX EY Hsh) Hsa)
      as (r & Hr & Hwr & Hsr & Hgr).
    exists r. split; [|split; [exact Hwr|split; [exact Hsr|exact Hgr]]].
    rewrite Hs. unfold slift, t_div, t_add. now rewrite Hr.
  - rewrite Hs. unfold slift, t_div, t_add, lift2; simpl.
    now rewrite (broadcast_binary_mismatch Rplus X Y Hsh).
Qed.

End SamplingBroadcast.

(** ** Points of evaluation with leading axes *)

Lemma bshape_rev_prefix (r q : list nat) : bshape_rev r (r ++ q) = Some (r ++ q).
Proof.
  induction r as [|d r IH]; simpl; [reflexivity|].
  now rewrite bdim_refl, IH.
Qed.

Lemma bidx_rev_prefix (ri rs q : list nat) :
  Forall2 lt ri rs -> bidx_rev rs (ri ++ q) = ri.
Proof.
  induction 1 as [|i d ri rs Hlt _ IH]; simpl.
  - now destruct q.
  - rewrite IH. destruct (Nat.eqb_spec d 1); [f_equal; lia | reflexivity].
Qed.

Lemma bshape_suffix (pre sh : list nat) : bshape sh (pre ++ sh) = Some (pre ++ sh).
Proof.
  unfold bshape. rewrite rev_app_distr, bshape_rev_prefix. simpl.
  now rewrite rev_app_distr, !rev_involutive.
Qed.

Lemma bidx_suffix (sh p i : list nat) : in_bounds i sh -> bidx sh (p ++ i) = i.
Proof.
  intros H. unfold bidx.
  rewrite rev_app_distr, (bidx_rev_prefix _ (Forall2_rev H)).
  apply rev_involutive.
Qed.

Section LeadingAxes.
Context {F : Backend}.

(** X6. [log_prob] accepts points of evaluation with extra leading axes
    (a stack of samples): for [x] of shape [pre ++ batch_shape] the result
    has the shape of [x], and its entry at [p ++ i] is the closed form of
    the parameters at [i] and of [x] at [p ++ i]; the parameters are reused
    along the leading axes. *)
Theorem log_prob_leading_axes (self : Beta) (x : Tensor) (pre : list nat) :
  Beta_wf self -> wf x -> shape x = pre ++ batch_shape self ->
  exists r, log_prob self x = Some r /\ wf r /\ shape r = shape x /\
    forall p i, in_bounds p pre -> in_bounds i (batch_shape self) ->
      let a := get (alpha self) i in
      let b := get (beta self) i in
      let v := get x (p ++ i) in
      get r (p ++ i) =
      ((a - 1) * F_log v + (b - 1) * F_log (1 - v)
       - F_gammaln a - F_gammaln b + F_gammaln (a + b))%R.
Proof.
  intros H Hwx Hsx.
  assert (Hsh : bshape (batch_shape self) (shape x) = Some (shape x))
    by (rewrite Hsx; apply bshape_suffix).
  destruct (log_prob_entrywise H Hwx Hsh) as (r & Hr & Hwr & Hsr & Hgr).
  exists r. repeat (split; [assumption|]).
  intros p i Hp Hi a b v.
  assert (Hpi : in_bounds (p ++ i) (shape x))
    by (rewrite Hsx; now apply Forall2_app).
  rewrite (Hgr _ Hpi). simpl.
  rewrite (bidx_id Hpi), (bidx_suffix p Hi). reflexivity.
Qed.

End LeadingAxes.

(** ** The output head: errors and the instance it feeds *)

Lemma squeeze_last_no_singleton (t : Tensor) :
  (forall sh, shape t <> sh ++ [1%nat]) -> squeeze_last t = None.
Proof.
  intros H. unfold squeeze_last.
  destruct (rev (shape t)) as [|[|[|n]] r] eqn:E; try reflexivity.
  exfalso. apply (H (rev r)).
  rewrite <- (rev_involutive (shape t)), E. reflexivity.
Qed.

Lemma squeeze_last_shape (t u : Tensor) :
  squeeze_last t = Some u ->
  exists sh, shape t = sh ++ [1%nat] /\ shape u = at_least_one_axis sh /\
             data u = data t.
Proof.
  unfold squeeze_last.
  destruct (rev (shape t)) as [|[|[|n]] r] eqn:E; try discriminate.
  intros [= <-]. exists (rev r). simpl. repeat split.
  rewrite <- (rev_involutive (shape t)), E. reflexivity.
Qed.

(** X7. [domain_map] treats its two arguments separately and does not
    compare their shapes: it returns a pair as soon as each raw tensor ends
    in an axis of length 1, with each result in the shape of its own input
    less that axis (an only axis is kept); it raises when either input
    lacks the trailing singleton axis (a longer last axis, or no axis at
    all). *)
Theorem domain_map_raises_iff (alpha beta : Tensor) :
  (forall sa sb, shape alpha = sa ++ [1%nat] -> shape beta = sb ++ [1%nat] ->
     exists a b, domain_map alpha beta = Some (a, b) /\
                 shape a = at_least_one_axis sa /\
                 shape b = at_least_one_axis sb) /\
  ((forall sa, shape alpha <> sa ++ [1%nat]) \/
   (forall sb, shape beta <> sb ++ [1%nat]) ->
   domain_map alpha beta = None) /\
  (forall a b, domain_map alpha beta = Some (a, b) ->
     exists sa sb, shape alpha = sa ++ [1%nat] /\ shape beta = sb ++ [1%nat] /\
                   shape a = at_least_one_axis sa /\
                   shape b = at_least_one_axis sb).
Proof.
  split; [|split].
  - intros sa sb Ha Hb. do 2 eexists.
    split; [exact (@domain_map_value _ _ _ _ Ha Hb)|]. now split.
  - intros H. unfold domain_map, softplus, t_add_scalar; simpl.
    destruct H as [H|H].
    + now rewrite squeeze_last_no_singleton.
    + rewrite (@squeeze_last_no_singleton (tmap _ (tmap _ beta))) by exact H.
      now destruct (squeeze_last _).
  - intros a b. unfold domain_map, softplus, t_add_scalar; simpl.
    destruct (squeeze_last (tmap _ (tmap _ alpha))) as [a'|] eqn:Ea;
      [|discriminate]. simpl.
    destruct (squeeze_last (tmap _ (tmap _ beta))) as [b'|] eqn:Eb;
      [|discriminate]. simpl.
    intros [= <- <-].
    destruct (squeeze_last_shape _ Ea) as (sa & Hsa & Hsa' & _).
    destruct (squeeze_last_shape _ Eb) as (sb & Hsb & Hsb' & _).
    exists sa, sb. simpl in Hsa, Hsb. tauto.
Qed.

(** X8. The output of [domain_map] on two well-formed raw tensors of shape
    (batch shape, 1) is a valid Beta instance: both parameters are
    well-formed, of one shape (the batch shape, or (1,) when the batch
    shape is empty) and strictly positive, so that its mean and variance do
    not raise and come back in that shape. *)
Theorem domain_map_feeds_Beta (raw_alpha raw_beta : Tensor) (batch : list nat) :
  wf raw_alpha -> wf raw_beta ->
  shape raw_alpha = batch ++ [1%nat] -> shape raw_beta = batch ++ [1%nat] ->
  exists a b, domain_map raw_alpha raw_beta = Some (a, b) /\
    Beta_wf (mkBeta a b) /\
    batch_shape (mkBeta a b) = at_least_one_axis batch /\
    Forall (fun v => 0 < v)%R (data a) /\ Forall (fun v => 0 < v)%R (data b) /\
    exists m v, mean (mkBeta a b) = Some m /\ variance (mkBeta a b) = Some v /\
      shape m = at_least_one_axis batch /\ shape v = at_least_one_axis batch.
Proof.
  intros Hwa Hwb Ha Hb.
  set (f := (fun v => softplus_scalar v + 1e-8)%R).
  set (a := mkTensor (at_least_one_axis batch) (map f (data raw_alpha))).
  set (b := mkTensor (at_least_one_axis batch) (map f (data raw_beta))).
  assert (Hfa : wf a) by exact (@wf_squeezed _ _ _ Hwa Ha).
  assert (Hfb : wf b) by exact (@wf_squeezed _ _ _ Hwb Hb).
  assert (Hpos : forall l, Forall (fun v => 0 < v)%R (map f l)).
  { intros l. apply Forall_map, Forall_forall. intros v _.
    pose proof (softplus_scalar_pos v). unfold f. lra. }
  assert (Hd : Beta_wf (mkBeta a b)) by (repeat split; assumption).
  exists a, b. split; [exact (@domain_map_value _ _ _ _ Ha Hb)|].
  split; [exact Hd|]. split; [reflexivity|].
  split; [apply Hpos|]. split; [apply Hpos|].
  destruct (mean_entrywise Hd) as (m & Hm & _ & Hsm & _).
  destruct (variance_entrywise Hd) as (v & Hv & _ & Hsv & _).
  exists m, v. repeat (split; [assumption|]). assumption.
Qed.

(** ** Parameters and points of evaluation of three different shapes *)

Lemma bdim_to_iff (d e : nat) : bdim d e = Some e <-> d = e \/ d = 1%nat.
Proof.
  unfold bdim.
  destruct (Nat.eqb_spec d e) as [->|Hne]; [tauto|].
  destruct (Nat.eqb_spec d 1) as [->|H1]; [tauto|].
  destruct (Nat.eqb_spec e 1) as [->|H2].
  - split; [intros [= E]; congruence | tauto].
  - split; [discriminate | tauto].
Qed.

Lemma bshape_rev_to_cons (d e : nat) (ts tu : list nat) :
  bshape_rev (d :: ts) (e :: tu) = Some (e :: tu) <->
  (d = e \/ d = 1%nat) /\ bshape_rev ts tu = Some tu.
Proof.
  simpl. split.
  - destruct (bdim d e) as [d'|] eqn:Hd; [|discriminate].
    destruct (bshape_rev ts tu) as [t'|]; [|discriminate].
    intros [= -> ->]. split; [now apply bdim_to_iff | reflexivity].
  - intros [Hd Ht]. apply bdim_to_iff in Hd. now rewrite Hd, Ht.
Qed.

Lemma bshape_rev_trans (rs : list nat) :
  forall ru rw, bshape_rev rs ru = Some ru -> bshape_rev ru rw = Some rw ->
                bshape_rev rs rw = Some rw.
Proof.
  induction rs as [|d ts IH]; intros ru rw Hsu Huw; [reflexivity|].
  destruct ru as [|e tu]; [discriminate|].
  destruct rw as [|f tw]; [discriminate|].
  apply bshape_rev_to_cons in Hsu, Huw. apply bshape_rev_to_cons.
  destruct Hsu as [Hd Hsu], Huw as [He Huw].
  split; [lia | eauto].
Qed.

Lemma bshape_rev_lub (rs : list nat) :
  forall rt rw, bshape_rev rs rw = Some rw -> bshape_rev rt rw = Some rw ->
    exists ru, bshape_rev rs rt = Some ru /\ bshape_rev ru rw = Some rw.
Proof.
  induction rs as [|d ts IH]; intros rt rw Hs Ht.
  - exists rt. now split.
  - destruct rt as [|d' tt]; [exists (d :: ts); now split|].
    destruct rw as [|e tw]; [discriminate|].
    apply bshape_rev_to_cons in Hs, Ht.
    destruct Hs as [Hd Hs], Ht as [Hd' Ht].
    destruct (IH _ _ Hs Ht) as (tu & Htu & Huw).
    assert (Hb : exists u, bdim d d' = Some u /\ (u = e \/ u = 1%nat)).
    { unfold bdim.
      destruct (Nat.eqb_spec d d'); [eauto|].
      destruct (Nat.eqb_spec d 1); [eauto|].
      destruct (Nat.eqb_spec d' 1); [eauto|]. lia. }
    destruct Hb as (u & Hu & Hue).
    exists (u :: tu). split.
    + simpl. now rewrite Hu, Htu.
    + apply bshape_rev_to_cons. now split.
Qed.

Lemma bidx_rev_compose (rs : list nat) :
  forall ru ri, bshape_rev rs ru = Some ru ->
                bidx_rev rs (bidx_rev ru ri) = bidx_rev rs ri.
Proof.
  induction rs as [|d ts IH]; intros ru ri Hsu; [reflexivity|].
  destruct ru as [|e tu]; [discriminate|].
  apply bshape_rev_to_cons in Hsu. destruct Hsu as [Hd Hsu].
  destruct ri as [|i ti]; [reflexivity|]. simpl.
  rewrite (IH _ _ Hsu). f_equal.
  destruct (Nat.eqb_spec d 1); [reflexivity|].
  destruct (Nat.eqb_spec e 1); [lia | reflexivity].
Qed.

Lemma bshape_to_rev (s u : list nat) :
  bshape s u = Some u <-> bshape_rev (rev s) (rev u) = Some (rev u).
Proof.
  unfold bshape. split.
  - destruct (bshape_rev (rev s) (rev u)) as [r|]; [|discriminate].
    simpl. intros [= <-]. now rewrite rev_involutive.
  - intros ->. simpl. now rewrite rev_involutive.
Qed.

Lemma bshape_to (s t u : list nat) :
  bshape s t = Some u -> bshape s u = Some u /\ bshape t u = Some u.
Proof.
  intros H. destruct (bshape_absorb _ _ H) as [H1 H2].
  now rewrite (bshape_comm s), (bshape_comm t).
Qed.

Lemma bshape_trans (s u w : list nat) :
  bshape s u = Some u -> bshape u w = Some w -> bshape s w = Some w.
Proof.
  rewrite !bshape_to_rev. apply bshape_rev_trans.
Qed.

Lemma bshape_lub (s t w : list nat) :
  bshape s w = Some w -> bshape t w = Some w ->
  exists u, bshape s t = Some u /\ bshape u w = Some w.
Proof.
  rewrite !bshape_to_rev. intros Hs Ht.
  destruct (bshape_rev_lub _ _ Hs Ht) as (ru & Hru & Huw).
  exists (rev ru). split.
  - unfold bshape. now rewrite Hru.
  - apply bshape_to_rev. now rewrite rev_involutive.
Qed.

Lemma bidx_compose (s u idx : list nat) :
  bshape s u = Some u -> bidx s (bidx u idx) = bidx s idx.
Proof.
  rewrite bshape_to_rev. intros H. unfold bidx.
  now rewrite rev_involutive, (bidx_rev_compose _ _ H).
Qed.

Lemma lift2_mismatch (f : R -> R -> R) (x y : result)
      (s1 s2 : list nat) (g1 g2 : list nat -> R) :
  entrywise x s1 g1 -> entrywise y s2 g2 -> bshape s1 s2 = None ->
  lift2 f x y = None.
Proof.
  intros (a & -> & _ & <- & _) (b & -> & _ & <- & _) H.
  now apply broadcast_binary_mismatch.
Qed.

Section ThreeShapes.
Context {F : Backend}.

(** X9. [log_prob] broadcasts alpha, beta and [x] jointly, whatever their
    shapes: with [s1] the broadcast of alpha and [x] and [s2] that of beta
    and [x], it returns a tensor of the broadcast shape of [s1] and [s2]
    whose entries are the closed form of the entries paired by
    broadcasting, and it raises as soon as one of these three broadcasts
    does not exist; nothing further can fail. *)
Theorem log_prob_broadcasts (self : Beta) (x : Tensor) :
  wf (alpha self) -> wf (beta self) -> wf x ->
  let joint :=
    match bshape (shape (alpha self)) (shape x),
          bshape (shape (beta self)) (shape x) with
    | Some s1, Some s2 => bshape s1 s2
    | _, _ => None
    end in
  match joint with
  | Some sh =>
      entrywise (log_prob self x) sh (fun idx =>
        let a := get (alpha self) (bidx (shape (alpha self)) idx) in
        let b := get (beta self) (bidx (shape (beta self)) idx) in
        let v := get x (bidx (shape x) idx) in
        (a - 1) * F_log v + (b - 1) * F_log (1 - v)
        - F_gammaln a - F_gammaln b + F_gammaln (a + b))%R
  | None => log_prob self x = None
  end.
Proof.
  intros Hwa Hwb Hwx joint. subst joint.
  pose proof (entrywise_tensor Hwa) as Ea.
  pose proof (entrywise_tensor Hwb) as Eb.
  pose proof (entrywise_tensor Hwx) as Ex.
  pose proof (entrywise_map (fun v => v - 1)%R Ea) as Ea1.
  pose proof (entrywise_map (fun v => v - 1)%R Eb) as Eb1.
  pose proof (entrywise_map F_log Ex) as Elx.
  pose proof (entrywise_map F_log (entrywise_map (fun v => 1 - v)%R Ex)) as Elx1.
  unfold log_prob, t_add, t_sub, t_mul, t_sub_scalar, t_rsub_scalar,
    t_log, t_gammaln.
  destruct (bshape (shape (alpha self)) (shape x)) as [s1|] eqn:H1.
  2:{ now rewrite (lift2_mismatch Rmult Ea1 Elx H1). }
  pose proof (entrywise_broadcast Rmult Ea1 Elx H1) as T1.
  destruct (bshape (shape (beta self)) (shape x)) as [s2|] eqn:H2.
  2:{ now rewrite (lift2_mismatch Rmult Eb1 Elx1 H2), lift2_error_r. }
  pose proof (entrywise_broadcast Rmult Eb1 Elx1 H2) as T2.
  destruct (bshape s1 s2) as [sh|] eqn:H3.
  2:{ now rewrite (lift2_mismatch Rplus T1 T2 H3). }
  destruct (bshape_to _ _ H1) as [Ha1 Hx1].
  destruct (bshape_to _ _ H2) as [Hb2 Hx2].
  destruct (bshape_to _ _ H3) as [H1h H2h].
  pose proof (@bshape_trans _ _ _ Ha1 H1h) as Hah.
  pose proof (@bshape_trans _ _ _ Hb2 H2h) as Hbh.
  destruct (@bshape_lub _ _ _ Hah Hbh) as (sab & Hab & Habh).
  destruct (bshape_to _ _ Hab) as [Haab Hbab].
  pose proof (entrywise_broadcast Rplus T1 T2 H3) as T3.
  rewrite (bshape_comm (shape (alpha self))) in Hah.
  rewrite (bshape_comm (shape (beta self))) in Hbh.
  rewrite (bshape_comm sab) in Habh.
  pose proof (entrywise_broadcast_r Rminus T3 (entrywise_map F_gammaln Ea) Hah) as T4.
  pose proof (entrywise_broadcast_r Rminus T4 (entrywise_map F_gammaln Eb) Hbh) as T5.
  pose proof (entrywise_broadcast_r Rplus T5
                (entrywise_map F_gammaln (entrywise_broadcast Rplus Ea Eb Hab))
                Habh) as T6.
  apply (entrywise_ext _ T6).
  intros idx _. simpl.
  rewrite !(fun i => @bidx_compose _ _ i Ha1), !(fun i => @bidx_compose _ _ i Hx1),
    !(fun i => @bidx_compose _ _ i Hb2), !(fun i => @bidx_compose _ _ i Hx2),
    !(fun i => @bidx_compose _ _ i Haab), !(fun i => @bidx_compose _ _ i Hbab).
  reflexivity.
Qed.

End ThreeShapes.

(** ** Further statements at concrete inputs *)

Lemma moments_broadcast_parameters_witness :
  (exists m v, mean broadcast_beta = Some m /\ variance broadcast_beta = Some v /\
     batch_shape broadcast_beta = [2; 1]%nat /\ shape m = [2; 3]%nat /\
     shape v = [2; 3]%nat /\ get m [1; 2]%nat = (5 / (5 + 3))%R) /\
  mean mismatched_beta = None /\ variance mismatched_beta = None.
Proof.
  split.
  - destruct (@moments_broadcast_parameters broadcast_beta)
      as [(m & Hm & _ & Hsm & Hgm) (v & Hv & _ & Hsv & _)]; try reflexivity.
    exists m, v. repeat split; try assumption.
    apply (Hgm [1; 2]%nat). repeat constructor.
  - apply (@moments_broadcast_parameters mismatched_beta); reflexivity.
Defined.

Lemma variance_swap_invariant_witness :
  variance (mkBeta (beta broadcast_beta) (alpha broadcast_beta))
  = variance broadcast_beta /\
  stddev (F := reference_backend)
         (mkBeta (beta broadcast_beta) (alpha broadcast_beta))
  = stddev (F := reference_backend) broadcast_beta.
Proof.
  apply (@variance_swap_invariant reference_backend broadcast_beta); reflexivity.
Defined.

Lemma s_broadcasts_parameters_witness :
  (exists r g', s (F := reference_backend) (alpha broadcast_beta)
                  (beta broadcast_beta) 0%nat = Some (r, g') /\
     wf r /\ shape r = [2; 3]%nat) /\
  s (F := reference_backend) (alpha mismatched_beta) (beta mismatched_beta) 0%nat
  = None.
Proof.
  split.
  - destruct (@s_broadcasts_parameters reference_backend
                (alpha broadcast_beta) (beta broadcast_beta) 0%nat)
      as (r & Hr & Hwr & Hsr & _); try reflexivity.
    exists r. eexists. split; [exact Hr|]. split; [exact Hwr | exact Hsr].
  - apply (@s_broadcasts_parameters reference_backend
             (alpha mismatched_beta) (beta mismatched_beta) 0%nat);
      reflexivity.
Defined.

Lemma log_prob_leading_axes_witness :
  exists r, log_prob (F := reference_backend) example_beta example_x_batch = Some r /\
    shape r = [2; 2]%nat /\
    get r [1; 0]%nat = ((2 - 1) * ln (1 / 3) + (5 - 1) * ln (1 - 1 / 3)
                         - lgamma_step 2 - lgamma_step 5 + lgamma_step (2 + 5))%R.
Proof.
  destruct (@log_prob_leading_axes reference_backend example_beta
              example_x_batch [2%nat]) as (r & Hr & _ & Hsr & Hget).
  - repeat split.
  - reflexivity.
  - reflexivity.
  - exists r. split; [exact Hr|]. split; [exact Hsr|].
    apply (Hget [1%nat] [0%nat]); repeat constructor.
Defined.

Lemma domain_map_raises_iff_witness :
  (exists a b, domain_map example_raw_alpha single_raw = Some (a, b) /\
               shape a = [2%nat] /\ shape b = [1%nat]) /\
  domain_map example_x_batch example_raw_beta = None.
Proof.
  split.
  - apply (proj1 (@domain_map_raises_iff example_raw_alpha single_raw)
             [2%nat] []); reflexivity.
  - apply (proj1 (proj2 (@domain_map_raises_iff example_x_batch example_raw_beta))).
    left. intros sa E. apply (f_equal (@rev nat)) in E.
    rewrite rev_app_distr in E. discriminate E.
Defined.

Lemma domain_map_feeds_Beta_witness :
  exists a b, domain_map example_raw_alpha example_raw_beta = Some (a, b) /\
    Beta_wf (mkBeta a b) /\ batch_shape (mkBeta a b) = [2%nat] /\
    exists m v, mean (mkBeta a b) = Some m /\ variance (mkBeta a b) = Some v /\
                shape m = [2%nat] /\ shape v = [2%nat].
Proof.
  destruct (@domain_map_feeds_Beta example_raw_alpha example_raw_beta [2%nat])
    as (a & b & Hab & Hwf & Hbs & _ & _ & m & v & Hm & Hv & Hsm & Hsv);
    try reflexivity.
  exists a, b. split; [exact Hab|]. split; [exact Hwf|]. split; [exact Hbs|].
  exists m, v. split; [exact Hm|]. split; [exact Hv|].
  split; [exact Hsm | exact Hsv].
Defined.

Lemma log_prob_broadcasts_witness :
  (exists r, log_prob (F := reference_backend) broadcast_beta example_x_row = Some r /\
     shape r = [2; 3]%nat /\
     get r [1; 2]%nat = ((5 - 1) * ln (1 / 4) + (3 - 1) * ln (1 - 1 / 4)
                          - lgamma_step 5 - lgamma_step 3 + lgamma_step (5 + 3))%R) /\
  log_prob (F := reference_backend) broadcast_beta example_x = None.
Proof.
  split.
  - destruct (@log_prob_broadcasts reference_backend broadcast_beta example_x_row)
      as (r & Hr & _ & Hsr & Hget); try reflexivity.
    exists r. split; [exact Hr|]. split; [exact Hsr|].
    apply (Hget [1; 2]%nat). repeat constructor.
  - apply (@log_prob_broadcasts reference_backend broadcast_beta example_x);
      reflexivity.
Defined.
